(** * wget-mp.py: the bounded process pool and the file-name heuristics

    A shallow embedding of [src/wget-mp.py]: the class [ProcessPool]
    (methods [__clean], [killall], [run], [finalize]) and the two string
    helpers [url2filename] and [guessUrlFromFilename].

    The pool talks to the operating system through [Popen.poll],
    [Popen.kill], [subprocess.Popen], [time.sleep] and the clock
    [time.mktime(time.gmtime())].  These are modelled by a deterministic
    [world]:
    - the present instant is kept in milliseconds, as the whole seconds
      [clock] that [time.mktime(time.gmtime())] reads and the rest
      [millis]; [time.sleep n] advances it by [n] seconds, and time that
      passes between two calls of the pool is [elapse];
    - every child has a [fate] fixed when it is launched: the instant at
      which it exits by itself (or never) and its exit code;
    - a kill signal is asynchronous: [poll] reports the death of the
      child [kill_lag] milliseconds after the signal, at once only when
      [kill_lag <= 0];
    - a sweep and [killall] take no time of their own;
    - timeouts are whole numbers of seconds, as the defaults and the
      [type=int] options of the command line are.

    Methods are computations in a small monad that threads the pool and
    the world, records every interaction with the outside in a
    chronological log, and ends in a value, an exception or, for the two
    polling loops, in [Diverge] when the fuel given to the loop is used
    up. *)

From stdpp Require Import base gmap list strings pretty.
From Stdlib Require Import ZArith Lia Ascii.

Local Open Scope Z_scope.

(** ** Children, handles and the world *)

(** What the operating system knows of a child: when it exits on its
    own ([None]: never) and with which code. *)
Record fate := { exit_at : option Z; exit_code : Z }.

(** A [subprocess.Popen] object with the attribute [start_time] that
    [start_timer] patches onto the class. *)
Record Popen := { pid : Z; child : fate; start_time : Z }.

(** [dying] holds the children that were sent SIGKILL, each with the
    instant, in milliseconds, from which [poll] reports its death. *)
Record world := {
  clock : Z;
  millis : Z;
  dying : gmap Z Z;
  kill_lag : Z;
  next_pid : Z;
  os_exec : Z → list string → option fate
}.

(** The children that were sent a kill signal. *)
Definition killed (w : world) : gset Z := dom (dying w).

(** The present instant, in milliseconds. *)
Definition instant (w : world) : Z := 1000 * clock w + millis w.

(** The kill of the child shows. *)
Definition kill_shows (w : world) (p : Popen) : bool :=
  match dying w !! pid p with
  | Some t => t <=? instant w
  | None => false
  end.

(** [p.poll()]: [None] while the child runs, its return code after. *)
Definition status (w : world) (p : Popen) : option Z :=
  if kill_shows w p then Some (-9)
  else match exit_at (child p) with
       | Some t => if t <=? clock w then Some (exit_code (child p)) else None
       | None => None
       end.

(** SIGKILL delivered to a child.  A child that is gone ignores it; for
    a child that is dying already the earlier of the two deaths
    stands. *)
Definition deliver_kill (w : world) (p : Popen) : world :=
  match status w p with
  | None =>
      let shows := instant w + kill_lag w in
      let t := match dying w !! pid p with
               | Some t0 => Z.min t0 shows
               | None => shows
               end in
      {| clock := clock w; millis := millis w;
         dying := <[pid p := t]> (dying w); kill_lag := kill_lag w;
         next_pid := next_pid w; os_exec := os_exec w |}
  | Some _ => w
  end.

Definition advance (n : Z) (w : world) : world :=
  {| clock := clock w + n; millis := millis w;
     dying := dying w; kill_lag := kill_lag w;
     next_pid := next_pid w; os_exec := os_exec w |}.

(** [ms] milliseconds pass outside the pool. *)
Definition elapse (ms : Z) (w : world) : world :=
  {| clock := (instant w + ms) `div` 1000;
     millis := (instant w + ms) `mod` 1000;
     dying := dying w; kill_lag := kill_lag w;
     next_pid := next_pid w; os_exec := os_exec w |}.

(** ** The pool *)

Record ProcessPool := {
  proc : list Popen;
  process_timeout : Z;
  max_processes : Z
}.

Definition MAXPROC : Z := 8.
Definition PROCESSTIMEOUT : Z := 0.
Definition DEBUG : Z := 0.

(** [ProcessPool.__init__] *)
Definition __init__ (process_timeout max_processes : Z) : ProcessPool :=
  {| proc := []; process_timeout := process_timeout;
     max_processes := max_processes |}.

(** [ProcessPool()], with the defaults of the keyword arguments *)
Definition default_pool : ProcessPool := __init__ PROCESSTIMEOUT MAXPROC.

Definition with_proc (ps : list Popen) (self : ProcessPool) : ProcessPool :=
  {| proc := ps; process_timeout := process_timeout self;
     max_processes := max_processes self |}.

Record state := { pool : ProcessPool; os : world }.

(** ** What the outside sees *)

Inductive message :=
| msg_killed_timeout (p t : Z)
| msg_killed_killall (p : Z)
| msg_waiting (n : nat) (dtime : Z)
| dbg_running (p runtime : Z)
| dbg_finished (p : Z)
| dbg_killing_time
| dbg_spawning (cmd : list string)
| dbg_new_process (p : Z)
| dbg_finalizing.

(** The two places of the source that call [p.kill()]. *)
Inductive kill_site := at_clean | at_killall.

Inductive event :=
| Print (m : message)
| Debug (level : Z) (m : message)
| Poll (p : Z) (r : option Z)
| Kill (site : kill_site) (p : Z)
| Spawn (cmd : list string) (p : Z)
| Sleep (secs : Z).

Inductive exn := OSError.

(** ** The monad *)

Inductive outcome (A : Type) :=
| Ret (a : A)
| Raise (e : exn)
| Diverge.
Arguments Ret {A} a.
Arguments Raise {A} e.
Arguments Diverge {A}.

Record result (A : Type) := Result {
  out : outcome A;
  post : state;
  log : list event
}.
Arguments Result {A} _ _ _.
Arguments out {A} _.
Arguments post {A} _.
Arguments log {A} _.

Definition M (A : Type) : Type := state → result A.

Definition ret {A} (a : A) : M A := fun s => Result (Ret a) s [].

Definition emitted {A} (l : list event) (r : result A) : result A :=
  Result (out r) (post r) (l ++ log r).

Definition bind {A B} (m : M A) (f : A → M B) : M B := fun s =>
  let r := m s in
  match out r with
  | Ret a => emitted (log r) (f a (post r))
  | Raise e => Result (Raise e) (post r) (log r)
  | Diverge => Result Diverge (post r) (log r)
  end.

Notation "x <- m ;; k" := (bind m (fun x => k))
  (at level 100, m at next level, right associativity).
Notation "m ;; k" := (bind m (fun _ => k))
  (at level 100, right associativity).

Definition raise {A} (e : exn) : M A := fun s => Result (Raise e) s [].
Definition diverge {A} : M A := fun s => Result Diverge s [].
Definition emit (e : event) : M unit := fun s => Result (Ret tt) s [e].
Definition self_ : M ProcessPool := fun s => Result (Ret (pool s)) s [].
Definition set_proc (ps : list Popen) : M unit := fun s =>
  Result (Ret tt) {| pool := with_proc ps (pool s); os := os s |} [].

(** ** Primitives of the outside *)

(** [time.mktime(time.gmtime())]: the present instant cut down to whole
    seconds *)
Definition time_now : M Z := fun s => Result (Ret (clock (os s))) s [].

(** [time.sleep(n)]: [n] seconds pass, wherever within its second the
    present instant stands *)
Definition time_sleep (n : Z) : M unit := fun s =>
  Result (Ret tt) {| pool := pool s; os := advance n (os s) |} [Sleep n].

(** [p.poll()] *)
Definition poll (p : Popen) : M (option Z) := fun s =>
  Result (Ret (status (os s) p)) s [Poll (pid p) (status (os s) p)].

(** [p.kill()], called from [site] *)
Definition kill (site : kill_site) (p : Popen) : M unit := fun s =>
  Result (Ret tt) {| pool := pool s; os := deliver_kill (os s) p |}
         [Kill site (pid p)].

(** [subprocess.Popen(cmd, stdout=None)]: raises [OSError] when the
    program cannot be started.  The attribute [start_time] does not
    exist before [start_timer]; the field holds the reading of the clock
    at the launch. *)
Definition subprocess_Popen (cmd : list string) : M Popen := fun s =>
  let w := os s in
  match os_exec w (clock w) cmd with
  | None => Result (Raise OSError) s []
  | Some f =>
      Result (Ret {| pid := next_pid w; child := f; start_time := clock w |})
             {| pool := pool s;
                os := {| clock := clock w; millis := millis w;
                         dying := dying w; kill_lag := kill_lag w;
                         next_pid := next_pid w + 1; os_exec := os_exec w |} |}
             [Spawn cmd (next_pid w)]
  end.

(** ** Printing *)

Definition p_dbg (m : message) (level : Z) : M unit :=
  if level <=? DEBUG then emit (Debug level m) else ret tt.

Definition p_msg (m : message) : M unit := emit (Print m).

(** ** The timer patched onto [Popen] *)

Definition start_timer (p : Popen) : M Popen :=
  now <- time_now ;;
  ret {| pid := pid p; child := child p; start_time := now |}.

Definition get_runtime (p : Popen) : M Z :=
  now <- time_now ;; ret (now - start_time p).

(** ** [ProcessPool.__clean] *)

(** The body of [for p in self.proc], with [newproc] as accumulator.
    The [and] of line 89 evaluates [p.get_runtime()] only when the
    timeout is set. *)
Fixpoint clean_loop (T : Z) (ps newproc : list Popen) : M (list Popen) :=
  match ps with
  | [] => ret newproc
  | p :: ps' =>
      r <- poll p ;;
      match r with
      | None =>
          over <- (if 0 <? T
                  then (rt <- get_runtime p ;; ret (T <? rt))
                  else ret false) ;;
          if over : bool
          then p_msg (msg_killed_timeout (pid p) T) ;;
               kill at_clean p ;;
               clean_loop T ps' newproc
          else rt <- get_runtime p ;;
               p_dbg (dbg_running (pid p) rt) 2 ;;
               clean_loop T ps' (newproc ++ [p])
      | Some _ =>
          p_dbg (dbg_finished (pid p)) 3 ;;
          clean_loop T ps' newproc
      end
  end.

Definition __clean : M unit :=
  self <- self_ ;;
  newproc <- clean_loop (process_timeout self) (proc self) [] ;;
  set_proc newproc.

(** ** [ProcessPool.killall] *)

Fixpoint killall_loop (ps : list Popen) : M unit :=
  match ps with
  | [] => ret tt
  | p :: ps' =>
      r <- poll p ;;
      match r with
      | None =>
          p_msg (msg_killed_killall (pid p)) ;;
          kill at_killall p ;;
          killall_loop ps'
      | Some _ => killall_loop ps'
      end
  end.

Definition killall : M unit :=
  p_dbg dbg_killing_time 1 ;;
  self <- self_ ;;
  killall_loop (proc self).

(** ** [ProcessPool.run] *)

(** The body of the [while] of lines 107-109. *)
Definition wait_round : M unit :=
  __clean ;;
  time_sleep 1.

(** The [while] itself; one unit of fuel per iteration. *)
Fixpoint run_wait (fuel : nat) : M unit :=
  self <- self_ ;;
  if max_processes self <=? Z.of_nat (length (proc self))
  then match fuel with
       | O => diverge
       | S fuel' => wait_round ;; run_wait fuel'
       end
  else ret tt.

Definition run (fuel : nat) (cmd : list string) : M unit :=
  run_wait fuel ;;
  p_dbg (dbg_spawning cmd) 2 ;;
  p <- subprocess_Popen cmd ;;
  p <- start_timer p ;;
  p_dbg (dbg_new_process (pid p)) 3 ;;
  self <- self_ ;;
  set_proc (proc self ++ [p]).

(** ** [ProcessPool.finalize] *)

(** The body of the [while] of lines 122-130. *)
Definition finalize_round (stime timeout verbose idx : Z) : M unit :=
  now <- time_now ;;
  let dtime := now - stime in
  (if (0 <? timeout) && (timeout <=? dtime)
   then killall else ret tt) ;;
  (if (0 <? verbose) && (idx `mod` 10 =? 0)
   then self <- self_ ;;
        p_msg (msg_waiting (length (proc self)) dtime)
   else ret tt) ;;
  __clean ;;
  time_sleep 1.

(** The [while] itself; one unit of fuel per iteration. *)
Fixpoint finalize_loop (fuel : nat) (stime timeout verbose idx : Z) : M unit :=
  self <- self_ ;;
  if 0 <? Z.of_nat (length (proc self))
  then match fuel with
       | O => diverge
       | S fuel' =>
           finalize_round stime timeout verbose idx ;;
           finalize_loop fuel' stime timeout verbose (idx + 1)
       end
  else ret tt.

(** [main] calls [finalize()], that is [finalize fuel 0 1]. *)
Definition finalize (fuel : nat) (timeout verbose : Z) : M unit :=
  p_dbg dbg_finalizing 1 ;;
  stime <- time_now ;;
  __clean ;;
  finalize_loop fuel stime timeout verbose 0.

(** ** File names from URLs: [url2filename] and [guessUrlFromFilename]

    Python 2 [str] values are modelled by [string].  Each use of [re.sub]
    and [str.replace] in the two functions is given its own definition,
    following the matching rules of [re]: leftmost match, greedy
    repetition, ["."] matching everything but a newline, and ["$"]
    matching at the end and also in front of a newline that ends the
    string. *)

Local Open Scope char_scope.

Definition newline : ascii := "010".

(** [s.replace(a, b)] for one-character [a] and [b] *)
Fixpoint replace_char (a b : ascii) (s : string) : string :=
  match s with
  | EmptyString => EmptyString
  | String c r => String (if Ascii.eqb c a then b else c) (replace_char a b r)
  end.

Fixpoint strip_prefix (pre s : string) : option string :=
  match pre, s with
  | EmptyString, _ => Some s
  | String a pre', String c r =>
      if Ascii.eqb a c then strip_prefix pre' r else None
  | String _ _, EmptyString => None
  end.

(** the text left after a greedy ["/*"] *)
Fixpoint lstrip_slashes (s : string) : string :=
  match s with
  | String c r => if Ascii.eqb c "/" then lstrip_slashes r else s
  | EmptyString => EmptyString
  end.

(** a run of [n] slashes *)
Fixpoint slashes (n : nat) : string :=
  match n with
  | O => EmptyString
  | S n' => String "/" (slashes n')
  end.

(** [":/+"] at the head of [s]: what follows the match *)
Definition colon_slashes (s : string) : option string :=
  match s with
  | String c1 (String c2 r) =>
      if Ascii.eqb c1 ":" && Ascii.eqb c2 "/" then Some (lstrip_slashes r)
      else None
  | _ => None
  end.

(** ["^(https?|ftp|file):/+"] against [url]: what follows the match.  The
    alternatives are tried in the order of the pattern, the optional
    ["s"] first with it and then without. *)
Definition match_scheme (url : string) : option string :=
  let try pre := strip_prefix pre url ≫= colon_slashes in
  match try "https"%string with
  | Some r => Some r
  | None =>
    match try "http"%string with
    | Some r => Some r
    | None =>
      match try "ftp"%string with
      | Some r => Some r
      | None => try "file"%string
      end
    end
  end.

(** [re.sub("^(https?|ftp|file):/+", "", url)] *)
Definition sub_scheme (url : string) : string :=
  match match_scheme url with
  | Some r => r
  | None => url
  end.

(** ["/*$"] matching the whole of [s]: [s] is a run of slashes up to the
    end, or up to a newline that ends the string.  Returns what ["$"]
    left unconsumed. *)
Fixpoint slash_run_end (s : string) : option string :=
  match s with
  | EmptyString => Some EmptyString
  | String c r =>
      if Ascii.eqb c "/" then slash_run_end r
      else if Ascii.eqb c newline
           then match r with EmptyString => Some s | _ => None end
           else None
  end.

(** [re.sub("/+$", "", target)] *)
Fixpoint sub_trailing_slashes (s : string) : string :=
  match s with
  | EmptyString => EmptyString
  | String c r =>
      if Ascii.eqb c "/"
      then match slash_run_end r with
           | Some e => e
           | None => String c (sub_trailing_slashes r)
           end
      else String c (sub_trailing_slashes r)
  end.

Definition url2filename (url : string) : string :=
  let target := sub_scheme url in
  let target := sub_trailing_slashes target in
  let target := replace_char "/" "+" target in
  let target := replace_char " " "_" target in
  target.

(** a ["/"] occurs in [s] before any newline: [".*/"] matches at the
    head of [s] *)
Fixpoint slash_ahead (s : string) : bool :=
  match s with
  | EmptyString => false
  | String c r =>
      if Ascii.eqb c newline then false
      else if Ascii.eqb c "/" then true
      else slash_ahead r
  end.

(** [re.sub(".*/", "", filename)]: in every line, all up to its last
    slash goes *)
Fixpoint sub_dirs (s : string) : string :=
  match s with
  | EmptyString => EmptyString
  | String c r => if slash_ahead s then sub_dirs r else String c (sub_dirs r)
  end.

Definition guessUrlFromFilename (filename : string) : string :=
  let target := sub_dirs filename in
  let target := ("http://" +:+ target)%string in
  let target := replace_char "+" "/" target in
  target.

(** Conditions on a URL's remainder *)

Fixpoint contains (a : ascii) (s : string) : bool :=
  match s with
  | EmptyString => false
  | String c r => Ascii.eqb c a || contains a r
  end.

Fixpoint consecutive_slashes (s : string) : bool :=
  match s with
  | String c1 ((String c2 _) as r) =>
      (Ascii.eqb c1 "/" && Ascii.eqb c2 "/") || consecutive_slashes r
  | _ => false
  end.

Fixpoint trailing_slash (s : string) : bool :=
  match s with
  | EmptyString => false
  | String c EmptyString => Ascii.eqb c "/"
  | String _ r => trailing_slash r
  end.

Definition leading_slash (s : string) : bool :=
  match s with
  | String c _ => Ascii.eqb c "/"
  | EmptyString => false
  end.

(** [s] ends in a slash followed by a newline *)
Fixpoint trailing_slash_newline (s : string) : bool :=
  match s with
  | String c1 ((String c2 r') as r) =>
      match r' with
      | EmptyString => Ascii.eqb c1 "/" && Ascii.eqb c2 newline
      | _ => trailing_slash_newline r
      end
  | _ => false
  end.

Local Close Scope char_scope.

(** ** Pure views of the two [for] loops

    What a sweep and a [killall] leave behind, as functions of the world
    at their start.  [clean_loop_spec] and [killall_loop_spec] below show
    that the methods compute exactly these. *)

Definition over_time (T : Z) (w : world) (p : Popen) : bool :=
  (0 <? T) && (T <? clock w - start_time p).

Fixpoint survivors (T : Z) (w : world) (ps : list Popen) : list Popen :=
  match ps with
  | [] => []
  | p :: ps' =>
      match status w p with
      | None => if over_time T w p then survivors T (deliver_kill w p) ps'
                else p :: survivors T w ps'
      | Some _ => survivors T w ps'
      end
  end.

Fixpoint after_sweep (T : Z) (w : world) (ps : list Popen) : world :=
  match ps with
  | [] => w
  | p :: ps' =>
      match status w p with
      | None => if over_time T w p then after_sweep T (deliver_kill w p) ps'
                else after_sweep T w ps'
      | Some _ => after_sweep T w ps'
      end
  end.

Fixpoint sweep_log (T : Z) (w : world) (ps : list Popen) : list event :=
  match ps with
  | [] => []
  | p :: ps' =>
      match status w p with
      | None =>
          if over_time T w p
          then Poll (pid p) None :: Print (msg_killed_timeout (pid p) T)
                 :: Kill at_clean (pid p) :: sweep_log T (deliver_kill w p) ps'
          else Poll (pid p) None :: sweep_log T w ps'
      | Some rc => Poll (pid p) (Some rc) :: sweep_log T w ps'
      end
  end.

Fixpoint after_killall (w : world) (ps : list Popen) : world :=
  match ps with
  | [] => w
  | p :: ps' =>
      match status w p with
      | None => after_killall (deliver_kill w p) ps'
      | Some _ => after_killall w ps'
      end
  end.

Fixpoint killall_log (w : world) (ps : list Popen) : list event :=
  match ps with
  | [] => []
  | p :: ps' =>
      match status w p with
      | None =>
          Poll (pid p) None :: Print (msg_killed_killall (pid p))
            :: Kill at_killall (pid p) :: killall_log (deliver_kill w p) ps'
      | Some rc => Poll (pid p) (Some rc) :: killall_log w ps'
      end
  end.

(** ** Vocabulary of the statements *)

(** The child behind [p] is gone: [p.poll()] no longer returns [None]. *)
Definition gone (w : world) (p : Popen) : Prop := status w p ≠ None.

(** [w'] is [w] some time and some signals later. *)
Definition later (w w' : world) : Prop :=
  clock w ≤ clock w' ∧
  instant w ≤ instant w' ∧
  kill_lag w' = kill_lag w ∧
  ∀ x t, dying w !! x = Some t → ∃ t', dying w' !! x = Some t' ∧ t' ≤ t.

(** The child behind [p] is gone, or dying so that [poll] reports its
    death from the instant [t] on. *)
Definition dies_by (t : Z) (w : world) (p : Popen) : Prop :=
  gone w p ∨ ∃ t', dying w !! pid p = Some t' ∧ t' ≤ t.


(** The pool respects its admission limit. *)
Definition bounded (s : state) : Prop :=
  Z.of_nat (length (proc (pool s))) ≤ max_processes (pool s).

(** A log in which every kill comes right after a poll of the same child
    that returned [None], and the message announcing the kill. *)
Inductive guarded : list event → Prop :=
| guarded_nil : guarded []
| guarded_other e l :
    (∀ site x, e ≠ Kill site x) → guarded l → guarded (e :: l)
| guarded_kill x m site l :
    guarded l → guarded (Poll x None :: Print m :: Kill site x :: l).

(** The kills of a log, in the order in which they were issued. *)
Definition kills (l : list event) : list (kill_site * Z) :=
  omap (λ e, match e with Kill site x => Some (site, x) | _ => None end) l.

(** What a drain that only sweeps keeps true of the state [s] it has
    reached and the log [l] it has written since it started in [s0]. *)
Definition swept_from (s0 s : state) (l : list event) : Prop :=
  process_timeout (pool s) = process_timeout (pool s0) ∧
  later (os s0) (os s) ∧
  (∀ p, p ∈ proc (pool s) → p ∈ proc (pool s0)) ∧
  (∀ p, p ∈ proc (pool s0) →
     p ∈ proc (pool s) ∨ gone (os s) p ∨ pid p ∈ killed (os s)) ∧
  (∀ site x, Kill site x ∈ l →
     site = at_clean ∧ 0 < process_timeout (pool s0) ∧
     ∃ p, p ∈ proc (pool s0) ∧ pid p = x) ∧
  (∀ x, x ∈ killed (os s) → x ∈ killed (os s0) ∨ Kill at_clean x ∈ l).

(** Submitting jobs one after the other, as the loop of [main] does;
    every call comes with the fuel of its waiting loop. *)
Fixpoint run_seq (jobs : list (nat * list string)) : M unit :=
  match jobs with
  | [] => ret tt
  | (fuel, cmd) :: jobs' => run fuel cmd ;; run_seq jobs'
  end.

(** A drain that only sweeps: [finalize] without lines 124-125. *)
Definition sweep_only_round (stime verbose idx : Z) : M unit :=
  now <- time_now ;;
  let dtime := now - stime in
  (if (0 <? verbose) && (idx `mod` 10 =? 0)
   then self <- self_ ;;
        p_msg (msg_waiting (length (proc self)) dtime)
   else ret tt) ;;
  __clean ;;
  time_sleep 1.

Fixpoint sweep_only_loop (fuel : nat) (stime verbose idx : Z) : M unit :=
  self <- self_ ;;
  if 0 <? Z.of_nat (length (proc self))
  then match fuel with
       | O => diverge
       | S fuel' =>
           sweep_only_round stime verbose idx ;;
           sweep_only_loop fuel' stime verbose (idx + 1)
       end
  else ret tt.

Definition sweep_only_drain (fuel : nat) (verbose : Z) : M unit :=
  p_dbg dbg_finalizing 1 ;;
  stime <- time_now ;;
  __clean ;;
  sweep_only_loop fuel stime verbose 0.

(** The commands launched in a log, in the order of the launches. *)
Definition spawned (l : list event) : list (list string) :=
  omap (λ e, match e with Spawn cmd _ => Some cmd | _ => None end) l.


(** ** Sample data *)

Definition forever : fate := {| exit_at := None; exit_code := 0 |}.

(** An operating system that knows one program, [wget], whose children
    never exit by themselves. *)
Definition only_wget (now : Z) (cmd : list string) : option fate :=
  match cmd with
  | prog :: _ => if String.eqb prog "wget" then Some forever else None
  | [] => None
  end.

Definition w0 : world :=
  {| clock := 100; millis := 0; dying := ∅; kill_lag := 0;
     next_pid := 7; os_exec := only_wget |}.

Definition child1 : Popen := {| pid := 1; child := forever; start_time := 90 |}.
Definition child2 : Popen := {| pid := 2; child := forever; start_time := 99 |}.
Definition done3 : Popen :=
  {| pid := 3; child := {| exit_at := Some 95; exit_code := 0 |};
     start_time := 80 |}.

Definition pool_of (ps : list Popen) (T K : Z) : state :=
  {| pool := {| proc := ps; process_timeout := T; max_processes := K |};
     os := w0 |}.



(** A pool with a timeout of two seconds launches one job at the instant
    100.000; the caller comes back 900 milliseconds later, and from then
    on the pool sweeps once a second: at 100.900, 101.900 and 102.900
    ([sweep_at_102_9]), which leaves the state [before_sweep_at_103_9]. *)
Definition launched_at_100_0 : state :=
  post (run 0 ["wget"; "a"] {| pool := __init__ 2 8; os := w0 |}).

Definition caller_back_at_100_9 : state :=
  {| pool := pool launched_at_100_0; os := elapse 900 (os launched_at_100_0) |}.

Definition before_sweep_at_102_9 : state :=
  post (wait_round (post (wait_round caller_back_at_100_9))).

Definition sweep_at_102_9 : result unit := wait_round before_sweep_at_102_9.

Definition before_sweep_at_103_9 : state := post sweep_at_102_9.

(** ** [main], from the creation of the pool on (lines 197-254)

    The options are taken as [argparse] delivers them.  The interrupt
    from the keyboard, which may arrive at any moment, is not part of the
    model; every other exception goes through the handler of lines
    245-251.  What [main] prints by itself is logged as text, between
    the events of the pool. *)

Definition PROGNAME : string := "wget multi process".
Definition UAGENT : string :=
  "Mozilla/5.0 (X11; U; FreeBSD i386; en-US; rv:1.4b) Gecko/20030517 Mozilla Firebird/0.6".

Module Cli.
(** The namespace [parse_args] returns; [timeout] and [referer] are
    [None] when the option is not given. *)
Record args := {
  maxproc : Z;
  process_timeout : Z;
  timeout : option Z;
  connect_timeout : Z;
  dns_timeout : Z;
  read_timeout : Z;
  referer : option string;
  dynname : bool;
  refetch : bool;
  skipifexists : bool;
  nocontinue : bool;
  url : list string
}.
End Cli.

(** The truth value Python gives to an optional integer and to an
    optional string in [if (args.timeout)] and [if (args.referer)]. *)
Definition truth_int (o : option Z) : bool :=
  match o with Some n => negb (n =? 0) | None => false end.

Definition truth_str (o : option string) : bool :=
  match o with Some t => negb (String.eqb t "") | None => false end.

(** [str(x)] for an optional integer *)
Definition str (o : option Z) : string :=
  match o with Some n => pretty n | None => "None" end.

(** Lines 202-212 *)
Definition cmd_base (a : Cli.args) : list string :=
  let cmd_base := ["wget"; "--quiet"; "-U"; UAGENT] in
  let cmd_base := if negb (Cli.nocontinue a) then cmd_base ++ ["-c"]
                  else cmd_base in
  let cmd_base := if truth_str (Cli.referer a)
                  then cmd_base ++ ["--referer"; default "" (Cli.referer a)]
                  else cmd_base in
  if truth_int (Cli.timeout a)
  then cmd_base ++ ["--timeout"; str (Cli.timeout a)]
  else cmd_base ++ ["--connect-timeout"; pretty (Cli.connect_timeout a);
                    "--dns-timeout"; pretty (Cli.dns_timeout a);
                    "--read-timeout"; pretty (Cli.read_timeout a)].

Inductive main_event :=
| FromPool (e : event)
| Say (line : string)
| SayDebug (level : Z) (line : string)
| Traceback (e : exn).

Record main_result (A : Type) := MainResult {
  mout : outcome A;
  mpost : state;
  mlog : list main_event
}.
Arguments MainResult {A} _ _ _.
Arguments mout {A} _.
Arguments mpost {A} _.
Arguments mlog {A} _.

Definition Main (A : Type) : Type := state → main_result A.

Definition mret {A} (a : A) : Main A := fun s => MainResult (Ret a) s [].

Definition said {A} (l : list main_event) (r : main_result A) : main_result A :=
  MainResult (mout r) (mpost r) (l ++ mlog r).

Definition mbind {A B} (m : Main A) (f : A → Main B) : Main B := fun s =>
  let r := m s in
  match mout r with
  | Ret a => said (mlog r) (f a (mpost r))
  | Raise e => MainResult (Raise e) (mpost r) (mlog r)
  | Diverge => MainResult Diverge (mpost r) (mlog r)
  end.

Notation "x <-- m ;;; k" := (mbind m (fun x => k))
  (at level 100, m at next level, right associativity).
Notation "m ;;; k" := (mbind m (fun _ => k))
  (at level 100, right associativity).

(** A method of the pool called from [main] *)
Definition call {A} (m : M A) : Main A := fun s =>
  let r := m s in MainResult (out r) (post r) (FromPool <$> log r).

(** [p_msg] and [p_dbg] with the text [main] formats *)
Definition say (line : string) : Main unit := fun s =>
  MainResult (Ret tt) s [Say line].

Definition say_dbg (line : string) (level : Z) : Main unit :=
  if level <=? DEBUG then (fun s => MainResult (Ret tt) s [SayDebug level line])
  else mret tt.

(** [os.path.isfile(path)]; [fs] tells, for every instant, which files
    exist. *)
Definition os_path_isfile (fs : Z → string → bool) (path : string) : Main bool :=
  fun s => MainResult (Ret (fs (clock (os s)) path)) s [].

(** Lines 233-234, the end of the body of the loop *)
Definition submit (fuel : nat) (cmd : list string) (url : string) : Main unit :=
  say_dbg ("executing: " +:+ String.concat " " cmd) 1 ;;;
  call (run fuel (cmd ++ [url])).

(** Lines 214-234; every call of [run] gets [fuel] rounds. *)
Fixpoint for_urls (fs : Z → string → bool) (a : Cli.args) (fuel : nat)
    (cmd_base : list string) (urls : list string) : Main unit :=
  match urls with
  | [] => mret tt
  | url :: urls' =>
      let cmd := cmd_base in
      say ("URL: " +:+ url) ;;;
      if Cli.refetch a
      then
        let target := url in
        let url := guessUrlFromFilename url in
        say ("  <= ASSUMED URL: " +:+ url) ;;;
        let cmd := cmd ++ ["-O"; target] in
        submit fuel cmd url ;;;
        for_urls fs a fuel cmd_base urls'
      else if Cli.dynname a
      then
        let target := url2filename url in
        skip <-- (if Cli.skipifexists a then os_path_isfile fs target
                  else mret false) ;;;
        if skip : bool
        then say "  => SKIPPING (target exists)" ;;;
             for_urls fs a fuel cmd_base urls'
        else say ("  => " +:+ target) ;;;
             let cmd := cmd ++ ["-O"; target] in
             submit fuel cmd url ;;;
             for_urls fs a fuel cmd_base urls'
      else
        submit fuel cmd url ;;;
        for_urls fs a fuel cmd_base urls'
  end.

(** Lines 200-236, the body of [try] after the pool is made *)
Definition main_try (fs : Z → string → bool) (a : Cli.args) (fuel : nat) : Main unit :=
  let cmd_base := cmd_base a in
  say_dbg ("urls: " +:+ String.concat " " (Cli.url a)) 1 ;;;
  for_urls fs a fuel cmd_base (Cli.url a) ;;;
  call (finalize fuel 0 1) ;;;
  say "download(s) finished".

(** Lines 246-248 of the handler *)
Definition main_except : Main unit :=
  say (PROGNAME +:+ ": killing all processes!") ;;;
  call killall.

(** How [main] ends: the status given to [sys.exit] ([None] when a
    polling loop ran out of fuel), the state and all that was logged. *)
Record exit := Exit {
  exit_status : option Z;
  final : state;
  output : list main_event
}.

(** [main] in the world [w].  The pool is made first and its
    constructor cannot fail, so the handler always finds [ppool]. *)
Definition main (fs : Z → string → bool) (a : Cli.args) (fuel : nat)
    (w : world) : exit :=
  let ppool := __init__ (Cli.process_timeout a) (Cli.maxproc a) in
  let r := main_try fs a fuel {| pool := ppool; os := w |} in
  match mout r with
  | Ret _ => Exit (Some 0) (mpost r) (mlog r)
  | Raise e =>
      let h := main_except (mpost r) in
      Exit (Some 1) (mpost h) (mlog r ++ mlog h ++ [Traceback e])
  | Diverge => Exit None (mpost r) (mlog r)
  end.

(** The command [main] hands to [run] for [url], when it does not skip
    it. *)
Definition job (a : Cli.args) (url : string) : list string :=
  if Cli.refetch a
  then (cmd_base a ++ ["-O"; url]) ++ [guessUrlFromFilename url]
  else if Cli.dynname a
  then (cmd_base a ++ ["-O"; url2filename url]) ++ [url]
  else cmd_base a ++ [url].

(** [main] skips [url] in state [s]: lines 228-230. *)
Definition skips (fs : Z → string → bool) (a : Cli.args) (s : state)
    (url : string) : bool :=
  negb (Cli.refetch a) && Cli.dynname a && Cli.skipifexists a &&
  fs (clock (os s)) (url2filename url).

(** What [main] prints for [url] before it submits or skips it. *)
Definition announce (a : Cli.args) (skip : bool) (url : string) : list main_event :=
  Say ("URL: " +:+ url) ::
  if Cli.refetch a
  then [Say ("  <= ASSUMED URL: " +:+ guessUrlFromFilename url)]
  else if Cli.dynname a
  then if skip then [Say "  => SKIPPING (target exists)"]
       else [Say ("  => " +:+ url2filename url)]
  else [].

(** The events of the pool among those of [main] *)
Definition pool_events (l : list main_event) : list event :=
  omap (λ e, match e with FromPool e => Some e | _ => None end) l.

Definition sample_args (urls : list string) : Cli.args :=
  {| Cli.maxproc := 2; Cli.process_timeout := 3; Cli.timeout := None;
     Cli.connect_timeout := 0; Cli.dns_timeout := 0; Cli.read_timeout := 900;
     Cli.referer := None; Cli.dynname := true; Cli.refetch := false;
     Cli.skipifexists := true; Cli.nocontinue := false; Cli.url := urls |}.

(** A file system that holds one file for ever. *)
Definition one_file (name : string) (now : Z) (path : string) : bool :=
  String.eqb path name.

(** An operating system that starts every program. *)
Definition any_program (now : Z) (cmd : list string) : option fate :=
  Some forever.

Definition w_any : world :=
  {| clock := 100; millis := 0; dying := ∅; kill_lag := 0;
     next_pid := 7; os_exec := any_program |}.

(** * Properties *)

(** ** The monad and the primitives *)

Lemma emitted_nil {A} (r : result A) : emitted [] r = r.
Proof. by destruct r. Qed.

Lemma emitted_emitted {A} l1 l2 (r : result A) :
  emitted l1 (emitted l2 r) = emitted (l1 ++ l2) r.
Proof. unfold emitted; simpl. by rewrite app_assoc. Qed.

Lemma bind_Ret {A B} (m : M A) (f : A → M B) s a :
  out (m s) = Ret a → bind m f s = emitted (log (m s)) (f a (post (m s))).
Proof. unfold bind. by intros ->. Qed.

Lemma bind_ret_l {A B} (a : A) (f : A → M B) s : bind (ret a) f s = f a s.
Proof. unfold bind, ret. cbn [out post log]. apply emitted_nil. Qed.

Lemma p_dbg_silent m level : 0 < level → p_dbg m level = ret tt.
Proof.
  intros Hl. unfold p_dbg, DEBUG.
  destruct (Z.leb_spec level 0); [lia | done].
Qed.

(** ** The loops compute their pure views *)

Ltac run_monad :=
  unfold bind, ret, emit, raise, diverge, self_, set_proc, time_now,
    time_sleep, poll, kill, p_msg, p_dbg, get_runtime, start_timer,
    DEBUG, emitted; simpl.

Lemma clean_loop_spec T ps : ∀ newproc s,
  clean_loop T ps newproc s =
  Result (Ret (newproc ++ survivors T (os s) ps))
         {| pool := pool s; os := after_sweep T (os s) ps |}
         (sweep_log T (os s) ps).
Proof.
  induction ps as [|p ps IH]; intros newproc [self w]; simpl.
  - unfold ret. by rewrite app_nil_r.
  - unfold over_time. run_monad.
    destruct (status w p) as [rc|] eqn:Hst; simpl.
    + by rewrite IH.
    + destruct (0 <? T) eqn:HT; simpl;
        [destruct (T <? clock w - start_time p) eqn:Hrt; simpl|];
        rewrite IH; simpl; by rewrite <- ?app_assoc.
Qed.

Lemma clean_spec s :
  __clean s =
  Result (Ret tt)
    {| pool := with_proc (survivors (process_timeout (pool s)) (os s)
                            (proc (pool s))) (pool s);
       os := after_sweep (process_timeout (pool s)) (os s) (proc (pool s)) |}
    (sweep_log (process_timeout (pool s)) (os s) (proc (pool s))).
Proof.
  unfold __clean, bind at 1, self_; simpl.
  unfold bind. rewrite clean_loop_spec. simpl.
  unfold emitted, set_proc; simpl. by rewrite app_nil_r.
Qed.

Lemma killall_loop_spec ps : ∀ s,
  killall_loop ps s =
  Result (Ret tt) {| pool := pool s; os := after_killall (os s) ps |}
         (killall_log (os s) ps).
Proof.
  induction ps as [|p ps IH]; intros [self w]; simpl; [done|].
  run_monad. destruct (status w p) as [rc|] eqn:Hst; simpl; by rewrite IH.
Qed.

Lemma killall_spec s :
  killall s =
  Result (Ret tt) {| pool := pool s; os := after_killall (os s) (proc (pool s)) |}
         (killall_log (os s) (proc (pool s))).
Proof.
  unfold killall. run_monad. by rewrite killall_loop_spec.
Qed.

(** ** The world only moves forward *)

Section World.
Implicit Types (w : world) (p q : Popen).

Lemma later_refl w : later w w.
Proof.
  split; [lia|]. split; [lia|]. split; [done|].
  intros x t Hx. exists t. split; [done | lia].
Qed.

Lemma later_trans w1 w2 w3 : later w1 w2 → later w2 w3 → later w1 w3.
Proof.
  intros (Hc1&Hi1&Hl1&Hd1) (Hc2&Hi2&Hl2&Hd2).
  split; [lia|]. split; [lia|]. split; [congruence|].
  intros x t Hx. destruct (Hd1 x t Hx) as (t'&Hx'&Ht').
  destruct (Hd2 x t' Hx') as (t''&Hx''&Ht''). exists t''. split; [done | lia].
Qed.

Lemma later_killed w w' : later w w' → killed w ⊆ killed w'.
Proof.
  intros (_&_&_&Hd) x Hx. unfold killed in *.
  apply elem_of_dom in Hx as [t Hx]. destruct (Hd x t Hx) as (t'&Hx'&_).
  apply elem_of_dom. eauto.
Qed.

Lemma kill_shows_later w w' p :
  later w w' → kill_shows w p = true → kill_shows w' p = true.
Proof.
  intros (_&Hc&_&Hd). unfold kill_shows.
  destruct (dying w !! pid p) as [t|] eqn:Hx; [|done].
  destruct (Hd _ _ Hx) as (t'&->&Ht'). intros Ht%Z.leb_le.
  apply Z.leb_le. lia.
Qed.

Lemma gone_later w w' p : later w w' → gone w p → gone w' p.
Proof.
  intros Hl. unfold gone, status.
  destruct (kill_shows w p) eqn:Hk.
  - intros _. by rewrite (kill_shows_later w w' p Hl Hk).
  - destruct (kill_shows w' p); [done|].
    destruct (exit_at (child p)) as [t|]; [|done].
    destruct (Z.leb_spec t (clock w)); [|done].
    destruct Hl as (Hc&_). destruct (Z.leb_spec t (clock w')); [done | lia].
Qed.

(** A child that polls as running now was running at any earlier
    world. *)
Lemma status_None_earlier w w' p :
  later w w' → status w' p = None → status w p = None.
Proof.
  intros Hl Hn. destruct (status w p) as [rc|] eqn:Hst; [|done].
  exfalso. apply (gone_later w w' p Hl); [|done].
  unfold gone. by rewrite Hst.
Qed.

Lemma deliver_kill_clock w p : clock (deliver_kill w p) = clock w.
Proof. unfold deliver_kill. by destruct (status w p). Qed.

Lemma deliver_kill_lag w p : kill_lag (deliver_kill w p) = kill_lag w.
Proof. unfold deliver_kill. by destruct (status w p). Qed.

Lemma deliver_kill_instant w p : instant (deliver_kill w p) = instant w.
Proof. unfold deliver_kill. by destruct (status w p). Qed.

Lemma deliver_kill_fields w p :
  millis (deliver_kill w p) = millis w ∧
  next_pid (deliver_kill w p) = next_pid w ∧
  os_exec (deliver_kill w p) = os_exec w.
Proof. unfold deliver_kill. by destruct (status w p). Qed.

Lemma deliver_kill_later w p : later w (deliver_kill w p).
Proof.
  unfold deliver_kill. destruct (status w p); [apply later_refl|].
  split; [simpl; lia|]. split; [unfold instant; simpl; lia|].
  split; [done|]. intros x t Hx. simpl.
  destruct (decide (x = pid p)) as [->|Hne].
  - rewrite lookup_insert_eq, Hx. eexists. split; [done | lia].
  - rewrite lookup_insert_ne by done. exists t. split; [done | lia].
Qed.

Lemma advance_later n w : 0 ≤ n → later w (advance n w).
Proof.
  intros Hn. split; [simpl; lia|]. split; [unfold instant; simpl; lia|].
  split; [done|]. intros x t Hx. exists t. split; [done | lia].
Qed.

Lemma deliver_kill_killed w p x :
  x ∈ killed (deliver_kill w p) ↔
  x ∈ killed w ∨ (x = pid p ∧ status w p = None).
Proof.
  unfold deliver_kill, killed. destruct (status w p) as [rc|]; simpl.
  - split; [by left | by intros [?|[_ ?]]].
  - rewrite dom_insert_L, elem_of_union, elem_of_singleton. split.
    + intros [->|?]; [by right | by left].
    + intros [?|[-> _]]; [by right | by left].
Qed.

Lemma over_time_deliver_kill T w p q :
  over_time T (deliver_kill w p) q = over_time T w q.
Proof. unfold over_time. by rewrite deliver_kill_clock. Qed.

(** A signal to one child leaves the others as they are. *)
Lemma status_deliver_kill_other w p q :
  pid q ≠ pid p → status (deliver_kill w p) q = status w q.
Proof.
  intros Hne. unfold deliver_kill. destruct (status w p); [done|].
  unfold status, kill_shows. simpl. by rewrite lookup_insert_ne.
Qed.

(** At one instant, a running child is gone afterwards only by a kill. *)
Lemma gone_by_kill w w' p :
  clock w' = clock w → status w p = None → gone w' p → pid p ∈ killed w'.
Proof.
  unfold gone, status, killed, kill_shows. intros Hc.
  destruct (dying w' !! pid p) as [t'|] eqn:Hx'.
  { intros _ _. apply elem_of_dom. eauto. }
  destruct (dying w !! pid p) as [t|]; [destruct (t <=? instant w); [done|]|];
    rewrite Hc; by destruct (exit_at (child p)) as [e|]; [destruct (e <=? clock w)|].
Qed.

(** The child that was sent a kill shows dead [kill_lag] milliseconds
    later at the latest. *)
Lemma deliver_kill_dies w p :
  status w p = None → dies_by (instant w + kill_lag w) (deliver_kill w p) p.
Proof.
  intros Hst. right. unfold deliver_kill. rewrite Hst. simpl.
  rewrite lookup_insert_eq. eexists. split; [done|].
  destruct (dying w !! pid p); lia.
Qed.

Lemma dies_by_later t w w' p : later w w' → dies_by t w p → dies_by t w' p.
Proof.
  intros Hl [Hg|(t'&Hx&Ht)]; [left; by apply (gone_later w)|].
  destruct Hl as (_&_&_&Hd). destruct (Hd _ _ Hx) as (t''&Hx'&Ht').
  right. exists t''. split; [done | lia].
Qed.

Lemma dies_by_gone t w p : dies_by t w p → t ≤ instant w → gone w p.
Proof.
  intros [Hg|(t'&Hx&Ht)] Hc; [done|].
  unfold gone, status, kill_shows. rewrite Hx.
  by destruct (Z.leb_spec t' (instant w)); [|lia].
Qed.

Lemma dies_by_signalled t w p : dies_by t w p → gone w p ∨ pid p ∈ killed w.
Proof.
  intros [Hg|(t'&Hx&_)]; [by left | right].
  unfold killed. apply elem_of_dom. eauto.
Qed.

(** A second signal to a child that is dying in time changes nothing. *)
Lemma deliver_kill_again w p :
  dies_by (instant w + kill_lag w) w p → deliver_kill w p = w.
Proof.
  intros [Hg|(t'&Hx&Ht)]; unfold deliver_kill.
  - unfold gone in Hg. by destruct (status w p).
  - destruct (status w p); [done|]. rewrite Hx.
    rewrite Z.min_l by done. rewrite insert_id by done. by destruct w.
Qed.
End World.

(** ** One sweep *)

Section Sweep.
Variable T : Z.
Implicit Types (w : world) (p q : Popen) (ps : list Popen).

Lemma after_sweep_clock ps : ∀ w, clock (after_sweep T w ps) = clock w.
Proof.
  induction ps as [|p ps IH]; intros w; simpl; [done|].
  destruct (status w p); [apply IH|].
  destruct (over_time T w p); rewrite IH; [apply deliver_kill_clock | done].
Qed.


Lemma after_sweep_later ps : ∀ w, later w (after_sweep T w ps).
Proof.
  induction ps as [|p ps IH]; intros w; simpl; [apply later_refl|].
  destruct (status w p); [apply IH|].
  destruct (over_time T w p); [|apply IH].
  eapply later_trans; [apply deliver_kill_later | apply IH].
Qed.

Lemma after_sweep_killed_mono ps w : killed w ⊆ killed (after_sweep T w ps).
Proof. apply later_killed, after_sweep_later. Qed.

Lemma after_sweep_next_pid ps : ∀ w,
  next_pid (after_sweep T w ps) = next_pid w ∧
  os_exec (after_sweep T w ps) = os_exec w.
Proof.
  induction ps as [|p ps IH]; intros w; simpl; [done|].
  destruct (status w p) eqn:Hst; [apply IH|].
  destruct (over_time T w p); [|apply IH].
  destruct (IH (deliver_kill w p)) as [-> ->].
  by destruct (deliver_kill_fields w p) as (_&->&->).
Qed.

Lemma survivors_sublist ps : ∀ w, survivors T w ps `sublist_of` ps.
Proof.
  induction ps as [|p ps IH]; intros w; simpl; [constructor|].
  destruct (status w p); [by apply sublist_cons|].
  destruct (over_time T w p); [by apply sublist_cons | by apply sublist_skip].
Qed.

Lemma survivors_length ps w : (length (survivors T w ps) ≤ length ps)%nat.
Proof. apply sublist_length, survivors_sublist. Qed.

(** Whoever survives a sweep was tracked, was running when the sweep
    began and was within the timeout. *)
Lemma survivors_spec ps : ∀ w q,
  q ∈ survivors T w ps →
  q ∈ ps ∧ status w q = None ∧ over_time T w q = false.
Proof.
  induction ps as [|p ps IH]; intros w q; simpl; [by intros ?%elem_of_nil|].
  destruct (status w p) as [rc|] eqn:Hst.
  - intros (?&?&?)%IH. split; [by right | done].
  - destruct (over_time T w p) eqn:Hov.
    + intros (Hin&Hs&Ho)%IH. split; [by right|]. split.
      * exact (status_None_earlier w _ _ (deliver_kill_later w p) Hs).
      * by rewrite over_time_deliver_kill in Ho.
    + intros [->|Hin]%elem_of_cons; [by split; [left|]|].
      apply IH in Hin as (?&?&?). split; [by right | done].
Qed.

(** Every tracked process survives the sweep, or is gone after it, or
    was sent a kill. *)
Lemma swept_or_signalled ps : ∀ w q,
  q ∈ ps →
  q ∈ survivors T w ps ∨ gone (after_sweep T w ps) q ∨
  pid q ∈ killed (after_sweep T w ps).
Proof.
  induction ps as [|p ps IH]; intros w q; simpl; [by intros ?%elem_of_nil|].
  intros [->|Hin]%elem_of_cons.
  - destruct (status w p) as [rc|] eqn:Hst.
    + right. left. apply (gone_later w); [apply after_sweep_later|].
      unfold gone. by rewrite Hst.
    + destruct (over_time T w p).
      * right. right. apply after_sweep_killed_mono.
        apply deliver_kill_killed. by right.
      * left. by left.
  - destruct (status w p) as [rc|]; [by apply IH|].
    destruct (over_time T w p); [by apply IH|].
    destruct (IH w q Hin) as [?|?]; [left; by right | by right].
Qed.

(** The kills of a sweep: all issued at line 91, each to a tracked
    process that was running and over the timeout. *)
Lemma sweep_log_kill ps : ∀ w site x,
  Kill site x ∈ sweep_log T w ps →
  site = at_clean ∧
  ∃ p, p ∈ ps ∧ pid p = x ∧ status w p = None ∧ over_time T w p = true.
Proof.
  induction ps as [|p ps IH]; intros w site x; simpl; [by intros ?%elem_of_nil|].
  destruct (status w p) as [rc|] eqn:Hst.
  - intros [?|Hin]%elem_of_cons; [done|].
    apply IH in Hin as (->&q&?&?&?&?). split; [done|]. exists q. by split; [right|].
  - destruct (over_time T w p) eqn:Hov.
    + intros [?|[?|[[= -> ->]|Hin]%elem_of_cons]%elem_of_cons]%elem_of_cons;
        [done|done| |].
      * split; [done|]. exists p. by split; [left|].
      * apply IH in Hin as (->&q&?&?&Hs&Ho). split; [done|]. exists q.
        split; [by right|]. split; [done|]. split.
        -- exact (status_None_earlier w _ _ (deliver_kill_later w p) Hs).
        -- by rewrite over_time_deliver_kill in Ho.
    + intros [?|Hin]%elem_of_cons; [done|].
      apply IH in Hin as (->&q&?&?&?&?). split; [done|]. exists q. by split; [right|].
Qed.

(** Whatever a sweep adds to the killed children was signalled by it. *)
Lemma after_sweep_killed ps : ∀ w x,
  x ∈ killed (after_sweep T w ps) →
  x ∈ killed w ∨ Kill at_clean x ∈ sweep_log T w ps.
Proof.
  induction ps as [|p ps IH]; intros w x; simpl; [by left|].
  destruct (status w p) as [rc|] eqn:Hst.
  - intros [?|?]%IH; [by left | right; by right].
  - destruct (over_time T w p) eqn:Hov.
    + intros [[?|[Hx _]]%deliver_kill_killed|?]%IH.
      * by left.
      * subst x. right. do 2 right. by left.
      * right. by do 3 right.
    + intros [?|?]%IH; [by left | right; by right].
Qed.

(** Whoever a sweep signals is among the killed afterwards. *)
Lemma sweep_log_signalled ps : ∀ w site x,
  Kill site x ∈ sweep_log T w ps → x ∈ killed (after_sweep T w ps).
Proof.
  induction ps as [|p ps IH]; intros w site x; simpl; [by intros ?%elem_of_nil|].
  destruct (status w p) as [rc|] eqn:Hst.
  - intros [?|Hin]%elem_of_cons; [done | by apply IH in Hin].
  - destruct (over_time T w p) eqn:Hov.
    + intros [?|[?|[[= _ ->]|Hin]%elem_of_cons]%elem_of_cons]%elem_of_cons;
        [done|done| |by apply IH in Hin].
      apply after_sweep_killed_mono, deliver_kill_killed. by right.
    + intros [?|Hin]%elem_of_cons; [done | by apply IH in Hin].
Qed.

(** A running process over the timeout is signalled and dropped. *)
Lemma sweep_over_time ps : ∀ w p,
  p ∈ ps → status w p = None → over_time T w p = true →
  (p ∉ survivors T w ps) ∧
  (Kill at_clean (pid p) ∈ sweep_log T w ps) ∧
  (pid p ∈ killed (after_sweep T w ps)).
Proof.
  intros w p Hin Hst Hov.
  assert (Hnot : p ∉ survivors T w ps).
  { intros (_&_&Ho)%survivors_spec. congruence. }
  assert (Hkill : Kill at_clean (pid p) ∈ sweep_log T w ps).
  { clear Hnot. revert w Hst Hov.
    induction ps as [|q ps IH]; intros w Hst Hov; [by apply elem_of_nil in Hin|].
    simpl. apply elem_of_cons in Hin as [<-|Hin].
    - rewrite Hst, Hov. do 2 right. by left.
    - destruct (status w q) as [rc|] eqn:Hq; [right; by apply IH|].
      destruct (over_time T w q) eqn:Hoq; [|right; by apply IH].
      destruct (decide (pid p = pid q)) as [->|Hne]; [do 2 right; by left|].
      do 3 right. apply IH; [done| |by rewrite over_time_deliver_kill].
      by rewrite status_deliver_kill_other. }
  split; [done|]. split; [done|]. by apply sweep_log_signalled in Hkill.
Qed.

(** When nobody is running any more, the sweep drops everybody and
    touches nothing. *)
Lemma sweep_all_gone ps w :
  (∀ p, p ∈ ps → gone w p) →
  survivors T w ps = [] ∧ after_sweep T w ps = w.
Proof.
  induction ps as [|p ps IH]; simpl; [done|]. intros Hall.
  destruct (status w p) as [rc|] eqn:Hst.
  - apply IH. intros q Hq. apply Hall. by right.
  - by destruct (Hall p); [left|].
Qed.

Lemma sweep_log_guarded ps : ∀ w, guarded (sweep_log T w ps).
Proof.
  induction ps as [|p ps IH]; intros w; simpl; [constructor|].
  destruct (status w p) as [rc|] eqn:Hst; [by constructor|].
  destruct (over_time T w p); by constructor.
Qed.
End Sweep.

(** ** One [killall] *)

Section Killall.
Implicit Types (w : world) (p q : Popen) (ps : list Popen).

Lemma after_killall_clock ps : ∀ w, clock (after_killall w ps) = clock w.
Proof.
  induction ps as [|p ps IH]; intros w; simpl; [done|].
  destruct (status w p); rewrite IH; [done | apply deliver_kill_clock].
Qed.

Lemma after_killall_instant ps : ∀ w, instant (after_killall w ps) = instant w.
Proof.
  induction ps as [|p ps IH]; intros w; simpl; [done|].
  destruct (status w p); rewrite IH; [done | apply deliver_kill_instant].
Qed.

Lemma after_killall_later ps : ∀ w, later w (after_killall w ps).
Proof.
  induction ps as [|p ps IH]; intros w; simpl; [apply later_refl|].
  destruct (status w p); [apply IH|].
  eapply later_trans; [apply deliver_kill_later | apply IH].
Qed.

Lemma after_killall_killed_mono ps w : killed w ⊆ killed (after_killall w ps).
Proof. apply later_killed, after_killall_later. Qed.

(** After [killall] every tracked process is gone or shows dead
    [kill_lag] milliseconds later at the latest. *)
Lemma after_killall_dies ps : ∀ w p,
  p ∈ ps → dies_by (instant w + kill_lag w) (after_killall w ps) p.
Proof.
  induction ps as [|q ps IH]; intros w p; simpl; [by intros ?%elem_of_nil|].
  intros [->|Hin]%elem_of_cons.
  - destruct (status w q) as [rc|] eqn:Hst.
    + left. apply (gone_later w); [apply after_killall_later|].
      unfold gone. by rewrite Hst.
    + apply (dies_by_later _ (deliver_kill w q)); [apply after_killall_later|].
      by apply deliver_kill_dies.
  - destruct (status w q); [by apply IH|].
    rewrite <- (deliver_kill_instant w q), <- (deliver_kill_lag w q).
    by apply IH.
Qed.

(** When a kill shows at once, nobody tracked is running after
    [killall]. *)
Lemma after_killall_gone ps w p :
  kill_lag w ≤ 0 → p ∈ ps → gone (after_killall w ps) p.
Proof.
  intros Hlag Hin. apply (dies_by_gone (instant w + kill_lag w)).
  - by apply after_killall_dies.
  - rewrite after_killall_instant. lia.
Qed.

Lemma killall_log_kill ps : ∀ w site x,
  Kill site x ∈ killall_log w ps →
  site = at_killall ∧ ∃ p, p ∈ ps ∧ pid p = x ∧ status w p = None.
Proof.
  induction ps as [|p ps IH]; intros w site x; simpl; [by intros ?%elem_of_nil|].
  destruct (status w p) as [rc|] eqn:Hst.
  - intros [?|Hin]%elem_of_cons; [done|].
    apply IH in Hin as (->&q&?&?&?). split; [done|]. exists q. by split; [right|].
  - intros [?|[?|[[= -> ->]|Hin]%elem_of_cons]%elem_of_cons]%elem_of_cons;
      [done|done| |].
    + split; [done|]. exists p. by split; [left|].
    + apply IH in Hin as (->&q&?&?&Hs). split; [done|]. exists q.
      split; [by right|]. split; [done|].
      exact (status_None_earlier w _ _ (deliver_kill_later w p) Hs).
Qed.

Lemma after_killall_killed ps : ∀ w x,
  x ∈ killed (after_killall w ps) →
  x ∈ killed w ∨ Kill at_killall x ∈ killall_log w ps.
Proof.
  induction ps as [|p ps IH]; intros w x; simpl; [by left|].
  destruct (status w p) as [rc|] eqn:Hst.
  - intros [?|?]%IH; [by left | right; by right].
  - intros [[?|[Hx _]]%deliver_kill_killed|?]%IH.
    + by left.
    + subst x. right. do 2 right. by left.
    + right. by do 3 right.
Qed.

Lemma killall_log_signalled ps : ∀ w site x,
  Kill site x ∈ killall_log w ps → x ∈ killed (after_killall w ps).
Proof.
  induction ps as [|p ps IH]; intros w site x; simpl; [by intros ?%elem_of_nil|].
  destruct (status w p) as [rc|] eqn:Hst.
  - intros [?|Hin]%elem_of_cons; [done | by apply IH in Hin].
  - intros [?|[?|[[= _ ->]|Hin]%elem_of_cons]%elem_of_cons]%elem_of_cons;
      [done|done| |by apply IH in Hin].
    apply after_killall_killed_mono, deliver_kill_killed. by right.
Qed.

(** Every tracked process that was running is signalled. *)
Lemma killall_log_running ps : ∀ w p,
  p ∈ ps → status w p = None → Kill at_killall (pid p) ∈ killall_log w ps.
Proof.
  induction ps as [|q ps IH]; intros w p Hin Hst; [by apply elem_of_nil in Hin|].
  simpl. apply elem_of_cons in Hin as [<-|Hin].
  - rewrite Hst. do 2 right. by left.
  - destruct (status w q) as [rc|] eqn:Hq; [right; by apply IH|].
    destruct (decide (pid p = pid q)) as [->|Hne]; [do 2 right; by left|].
    do 3 right. apply IH; [done|]. by rewrite status_deliver_kill_other.
Qed.

Lemma killall_log_guarded ps : ∀ w, guarded (killall_log w ps).
Proof.
  induction ps as [|p ps IH]; intros w; simpl; [constructor|].
  destruct (status w p) as [rc|] eqn:Hst; by constructor.
Qed.
End Killall.

Lemma guarded_app l1 l2 : guarded l1 → guarded l2 → guarded (l1 ++ l2).
Proof.
  induction 1; intros Hl2; simpl; [done| |].
  - apply guarded_other; auto.
  - apply guarded_kill; auto.
Qed.

(** ** C1: [killall] *)

(** C1, as amended: [killall] does not clear the running set.  It leaves
    [self.proc] as it is and sends a kill, from line 104, to exactly the
    tracked processes that [poll] reports running, so that afterwards
    every tracked process has exited or has been sent a kill.  On an
    empty running set it does nothing at all: no exception, no output,
    the state as before. *)
Theorem killall_signals_running (s : state) :
  let r := killall s in
  out r = Ret tt ∧
  pool (post r) = pool s ∧
  clock (os (post r)) = clock (os s) ∧
  (∀ site x, Kill site x ∈ log r ↔
     site = at_killall ∧
     ∃ p, p ∈ proc (pool s) ∧ pid p = x ∧ status (os s) p = None) ∧
  (∀ p, p ∈ proc (pool s) →
     gone (os s) p ∨ pid p ∈ killed (os (post r))) ∧
  (proc (pool s) = [] → r = Result (Ret tt) s []).
Proof.
  cbv zeta. rewrite killall_spec. cbn [out post log pool os].
  split; [done|]. split; [done|]. split; [apply after_killall_clock|].
  split; [|split].
  - intros site x. split; [apply killall_log_kill|].
    intros (->&p&Hin&<-&Hst). by apply killall_log_running.
  - intros p Hin. destruct (status (os s) p) as [rc|] eqn:Hst.
    + left. unfold gone. by rewrite Hst.
    + right. apply (killall_log_signalled _ _ at_killall).
      by apply killall_log_running.
  - destruct s as [self w]; simpl. by intros ->.
Qed.

(** C1 as stated fails: a running set with one running child is as
    large after [killall] as before, and a tracked child that has exited
    receives no signal. *)
Lemma killall_keeps_running_set :
  let r := killall (pool_of [child1; done3] 0 8) in
  proc (pool (pool_of [child1; done3] 0 8)) ≠ [] ∧
  proc (pool (post r)) = [child1; done3] ∧
  proc (pool (post r)) ≠ [] ∧
  log r = [Poll 1 None; Print (msg_killed_killall 1); Kill at_killall 1;
           Poll 3 (Some 0)] ∧
  (∀ site, Kill site (pid done3) ∉ log r).
Proof.
  vm_compute. split; [done|]. split; [done|]. split; [done|]. split; [done|].
  intros site Hin.
  repeat (apply elem_of_cons in Hin as [Hin|Hin]; [discriminate|]).
  by apply elem_of_nil in Hin.
Qed.

(** ** The rounds of the polling loops *)

Lemma wait_round_spec s :
  let T := process_timeout (pool s) in
  let ps := proc (pool s) in
  wait_round s =
  Result (Ret tt)
    {| pool := with_proc (survivors T (os s) ps) (pool s);
       os := advance 1 (after_sweep T (os s) ps) |}
    (sweep_log T (os s) ps ++ [Sleep 1]).
Proof.
  cbv zeta. unfold wait_round, bind. rewrite clean_spec.
  cbn [out post log]. unfold time_sleep, emitted. cbn [out post log pool os].
  done.
Qed.

Lemma finalize_round_spec stime timeout verbose idx s :
  let T := process_timeout (pool s) in
  let ps := proc (pool s) in
  let dtime := clock (os s) - stime in
  let expired := (0 <? timeout) && (timeout <=? dtime) in
  let w1 := if expired then after_killall (os s) ps else os s in
  finalize_round stime timeout verbose idx s =
  Result (Ret tt)
    {| pool := with_proc (survivors T w1 ps) (pool s);
       os := advance 1 (after_sweep T w1 ps) |}
    ((if expired then killall_log (os s) ps else []) ++
     (if (0 <? verbose) && (idx `mod` 10 =? 0)
      then [Print (msg_waiting (length ps) dtime)] else []) ++
     sweep_log T w1 ps ++ [Sleep 1]).
Proof.
  cbv zeta. unfold finalize_round, bind at 1, time_now. cbn [out post log].
  destruct ((0 <? timeout) && (timeout <=? clock (os s) - stime));
    unfold bind at 1; rewrite ?killall_spec; unfold ret; cbn [out post log];
    (destruct ((0 <? verbose) && (idx `mod` 10 =? 0));
     [unfold bind at 1, bind at 1, self_, p_msg, emit
     |unfold bind at 1, ret]);
    cbn [out post log]; unfold bind; rewrite clean_spec;
    cbn [out post log pool os]; unfold time_sleep, emitted;
    cbn [out post log pool os]; f_equal; simpl;
    by rewrite <- ?app_assoc, ?app_nil_r.
Qed.

(** ** The polling loops *)

Lemma run_wait_unfold fuel s :
  run_wait fuel s =
  if max_processes (pool s) <=? Z.of_nat (length (proc (pool s)))
  then match fuel with
       | O => Result Diverge s []
       | S fuel' =>
           emitted (log (wait_round s)) (run_wait fuel' (post (wait_round s)))
       end
  else Result (Ret tt) s [].
Proof.
  destruct fuel as [|fuel]; simpl; unfold bind at 1, self_; cbn [out post log];
    rewrite emitted_nil;
    destruct (max_processes (pool s) <=? Z.of_nat (length (proc (pool s))));
    try done.
  apply (bind_Ret wait_round (λ _, run_wait fuel) s tt).
  by rewrite wait_round_spec.
Qed.

Lemma finalize_loop_unfold fuel stime timeout verbose idx s :
  finalize_loop fuel stime timeout verbose idx s =
  if 0 <? Z.of_nat (length (proc (pool s)))
  then match fuel with
       | O => Result Diverge s []
       | S fuel' =>
           let r := finalize_round stime timeout verbose idx s in
           emitted (log r)
             (finalize_loop fuel' stime timeout verbose (idx + 1) (post r))
       end
  else Result (Ret tt) s [].
Proof.
  destruct fuel as [|fuel]; simpl; unfold bind at 1, self_; cbn [out post log];
    rewrite emitted_nil;
    destruct (0 <? Z.of_nat (length (proc (pool s))));
    try done.
  apply (bind_Ret (finalize_round stime timeout verbose idx)
           (λ _, finalize_loop fuel stime timeout verbose (idx + 1)) s tt).
  by rewrite finalize_round_spec.
Qed.

Lemma finalize_unfold fuel timeout verbose s :
  finalize fuel timeout verbose s =
  emitted (log (__clean s))
    (finalize_loop fuel (clock (os s)) timeout verbose 0 (post (__clean s))).
Proof.
  unfold finalize. rewrite p_dbg_silent; last lia.
  unfold bind at 1, ret. cbn [out post log].
  unfold bind at 1, time_now. cbn [out post log].
  unfold bind. rewrite clean_spec. cbn [out post log].
  unfold emitted. cbn [out post log]. done.
Qed.

(** Invariants of the loops: a relation between the state reached and
    the log written so far, kept by every round, holds wherever the loop
    stands when it returns or when its fuel is used up. *)
Section Invariants.
Variable I : state → list event → Prop.

Lemma run_wait_invariant :
  (∀ s l, I s l → I (post (wait_round s)) (l ++ log (wait_round s))) →
  ∀ fuel s l, I s l →
    I (post (run_wait fuel s)) (l ++ log (run_wait fuel s)).
Proof.
  intros Hround. induction fuel as [|fuel IH]; intros s l HI;
    rewrite run_wait_unfold;
    destruct (max_processes (pool s) <=? Z.of_nat (length (proc (pool s))));
    cbn [out post log emitted]; rewrite ?app_nil_r; try done.
  rewrite app_assoc. by apply IH, Hround.
Qed.

Lemma finalize_loop_invariant stime timeout verbose :
  (∀ idx s l, I s l →
     let r := finalize_round stime timeout verbose idx s in
     I (post r) (l ++ log r)) →
  ∀ fuel idx s l, I s l →
    let r := finalize_loop fuel stime timeout verbose idx s in
    I (post r) (l ++ log r).
Proof.
  intros Hround. induction fuel as [|fuel IH]; intros idx s l HI;
    cbv zeta; rewrite finalize_loop_unfold;
    destruct (0 <? Z.of_nat (length (proc (pool s))));
    cbn [out post log emitted]; rewrite ?app_nil_r; try done.
  rewrite app_assoc. by apply IH, Hround.
Qed.
End Invariants.

Lemma run_wait_out fuel : ∀ s,
  (out (run_wait fuel s) = Ret tt ∧
   Z.of_nat (length (proc (pool (post (run_wait fuel s))))) <
     max_processes (pool (post (run_wait fuel s)))) ∨
  out (run_wait fuel s) = Diverge.
Proof.
  induction fuel as [|fuel IH]; intros s; rewrite run_wait_unfold;
    destruct (Z.leb_spec (max_processes (pool s))
                (Z.of_nat (length (proc (pool s)))));
    cbn [out post log emitted]; auto.
Qed.

Lemma finalize_loop_returns fuel stime timeout verbose : ∀ idx s,
  out (finalize_loop fuel stime timeout verbose idx s) = Ret tt →
  proc (pool (post (finalize_loop fuel stime timeout verbose idx s))) = [].
Proof.
  induction fuel as [|fuel IH]; intros idx s; rewrite finalize_loop_unfold;
    destruct (proc (pool s)) as [|p ps] eqn:Hps; simpl; try done.
  apply IH.
Qed.

(** ** [run] after its waiting loop *)

Lemma run_unfold fuel cmd s :
  let r1 := run_wait fuel s in
  let s1 := post r1 in
  let w := os s1 in
  run fuel cmd s =
  match out r1 with
  | Ret _ =>
      match os_exec w (clock w) cmd with
      | None => Result (Raise OSError) s1 (log r1)
      | Some f =>
          Result (Ret tt)
            {| pool := with_proc
                         (proc (pool s1) ++
                          [{| pid := next_pid w; child := f;
                              start_time := clock w |}]) (pool s1);
               os := {| clock := clock w; millis := millis w;
                        dying := dying w; kill_lag := kill_lag w;
                        next_pid := next_pid w + 1; os_exec := os_exec w |} |}
            (log r1 ++ [Spawn cmd (next_pid w)])
      end
  | Raise e => Result (Raise e) s1 (log r1)
  | Diverge => Result Diverge s1 (log r1)
  end.
Proof.
  cbv zeta. unfold run, bind at 1.
  destruct (out (run_wait fuel s)) as [[]| |]; [|done|done].
  unfold subprocess_Popen. run_monad.
  destruct (os_exec _ _ cmd); simpl; by rewrite ?app_nil_r.
Qed.

Lemma wait_round_config s :
  max_processes (pool (post (wait_round s))) = max_processes (pool s) ∧
  process_timeout (pool (post (wait_round s))) = process_timeout (pool s) ∧
  (length (proc (pool (post (wait_round s)))) ≤ length (proc (pool s)))%nat.
Proof.
  rewrite wait_round_spec. cbn [post pool with_proc proc max_processes
    process_timeout]. split; [done|]. split; [done|]. apply survivors_length.
Qed.

Lemma run_wait_config fuel s :
  max_processes (pool (post (run_wait fuel s))) = max_processes (pool s) ∧
  process_timeout (pool (post (run_wait fuel s))) = process_timeout (pool s) ∧
  (length (proc (pool (post (run_wait fuel s)))) ≤ length (proc (pool s)))%nat.
Proof.
  pose (I := λ (s' : state) (_ : list event),
    max_processes (pool s') = max_processes (pool s) ∧
    process_timeout (pool s') = process_timeout (pool s) ∧
    (length (proc (pool s')) ≤ length (proc (pool s)))%nat).
  apply (run_wait_invariant I) with (l := []); [|done].
  intros s' l (HK&HT&Hlen).
  destruct (wait_round_config s') as (HK'&HT'&Hlen').
  unfold I. rewrite HK', HT'. split; [done|]. split; [done|]. lia.
Qed.

Lemma run_wait_diverges fuel : ∀ s,
  max_processes (pool s) ≤ 0 → out (run_wait fuel s) = Diverge.
Proof.
  induction fuel as [|fuel IH]; intros s HK; rewrite run_wait_unfold;
    destruct (Z.leb_spec (max_processes (pool s))
                (Z.of_nat (length (proc (pool s))))); try lia; [done|].
  cbn [out emitted]. apply IH.
  by destruct (wait_round_config s) as (->&_).
Qed.

Lemma run_bounded fuel cmd s :
  bounded s →
  bounded (post (run fuel cmd s)) ∧
  max_processes (pool (post (run fuel cmd s))) = max_processes (pool s).
Proof.
  unfold bounded. intros Hb.
  destruct (run_wait_config fuel s) as (HK&_&Hlen).
  rewrite run_unfold.
  destruct (run_wait_out fuel s) as [[Hout Hlt]|Hout]; rewrite Hout.
  - destruct (os_exec _ _ cmd); cbn [post pool with_proc proc max_processes].
    + rewrite length_app. simpl. split; [lia | done].
    + split; [lia | done].
  - cbn [post]. split; [lia | done].
Qed.

Lemma run_seq_bounded jobs : ∀ s, bounded s → bounded (post (run_seq jobs s)).
Proof.
  induction jobs as [|[fuel cmd] jobs IH]; intros s Hb; simpl; [done|].
  unfold bind. destruct (run_bounded fuel cmd s Hb) as [Hb' _].
  destruct (out (run fuel cmd s)); cbn [post emitted]; auto.
Qed.

(** ** C2: the admission limit *)

(** C2: starting from a pool within its limit [K >= 1] (the fresh pool
    is), any number of successive calls of [run] leaves at most [K]
    tracked processes, wherever the calls stand: the fuel of each call
    is arbitrary, so the state in which [run_seq] ends ranges over the
    states after every sweep-and-sleep round of every call as well as
    after every return.  A call that returns has waited until the size
    was strictly below [K] and has then appended exactly one process. *)
Theorem run_never_exceeds_limit (jobs : list (nat * list string)) (s : state) :
  1 ≤ max_processes (pool s) →
  bounded s →
  bounded (post (run_seq jobs s)) ∧
  (∀ fuel, bounded (post (run_wait fuel s))) ∧
  (∀ fuel cmd,
     out (run fuel cmd s) = Ret tt →
     out (run_wait fuel s) = Ret tt ∧
     Z.of_nat (length (proc (pool (post (run_wait fuel s))))) <
       max_processes (pool s) ∧
     ∃ p, proc (pool (post (run fuel cmd s))) =
          proc (pool (post (run_wait fuel s))) ++ [p]).
Proof.
  intros HK Hb. split; [by apply run_seq_bounded|]. split.
  - intros fuel. unfold bounded in *.
    destruct (run_wait_config fuel s) as (->&_&Hlen). lia.
  - intros fuel cmd. rewrite run_unfold.
    destruct (run_wait_config fuel s) as (HK'&_&_).
    destruct (run_wait_out fuel s) as [[Hout Hlt]|Hout]; rewrite Hout;
      [|done].
    destruct (os_exec _ _ cmd); [|done]. intros _.
    split; [done|]. split; [lia|]. cbn [post pool with_proc proc]. eauto.
Qed.

Lemma run_never_exceeds_limit_witness :
  bounded (post (run_seq [(0%nat, ["wget"; "a"]); (3%nat, ["wget"; "b"]);
                          (2%nat, ["wget"; "c"])]
                   {| pool := __init__ 2 2; os := w0 |})).
Proof.
  assert (HK : 1 ≤ max_processes (pool {| pool := __init__ 2 2; os := w0 |}))
    by (simpl; lia).
  assert (Hb : bounded {| pool := __init__ 2 2; os := w0 |})
    by (unfold bounded; simpl; lia).
  exact (proj1 (run_never_exceeds_limit
    [(0%nat, ["wget"; "a"]); (3%nat, ["wget"; "b"]); (2%nat, ["wget"; "c"])]
    {| pool := __init__ 2 2; os := w0 |} HK Hb)).
Defined.

(** ** C7: a launch that fails *)

(** C7: when the waiting loop of [run] has returned and the program
    cannot be started, [run] ends in the exception [OSError]; pool and
    world are those the waiting loop left, the log is the log of the
    waiting loop: nothing was spawned and nothing was added to
    [self.proc]. *)
Theorem run_spawn_failure (fuel : nat) (cmd : list string) (s : state) :
  let r1 := run_wait fuel s in
  out r1 = Ret tt →
  os_exec (os (post r1)) (clock (os (post r1))) cmd = None →
  let r := run fuel cmd s in
  out r = Raise OSError ∧
  post r = post r1 ∧
  proc (pool (post r)) = proc (pool (post r1)) ∧
  log r = log r1.
Proof.
  cbv zeta. intros Hout Hexec. rewrite run_unfold. cbv zeta.
  by rewrite Hout, Hexec.
Qed.

Lemma run_spawn_failure_witness :
  let s := pool_of [child1; done3] 0 2 in
  out (run 3 ["curl"; "a"] s) = Raise OSError ∧
  proc (pool (post (run 3 ["curl"; "a"] s))) = [child1].
Proof.
  cbv zeta.
  destruct (run_spawn_failure 3 ["curl"; "a"] (pool_of [child1; done3] 0 2))
    as (Hout&Hpost&Hproc&Hlog); [reflexivity | reflexivity |].
  split; [exact Hout|]. rewrite Hproc. reflexivity.
Defined.

(** ** C8: a limit below one *)

(** C8: with [max_processes <= 0] the waiting loop of [run] uses up
    whatever fuel it is given, for every pool, the empty one included:
    [run] never returns and never raises. *)
Theorem run_never_returns (fuel : nat) (cmd : list string) (s : state) :
  max_processes (pool s) ≤ 0 →
  out (run fuel cmd s) = Diverge.
Proof.
  intros HK. rewrite run_unfold. cbv zeta.
  by rewrite (run_wait_diverges fuel s HK).
Qed.

Lemma run_never_returns_witness :
  out (run 50 ["wget"; "a"] {| pool := __init__ 0 0; os := w0 |}) = Diverge.
Proof.
  apply (run_never_returns 50 ["wget"; "a"] {| pool := __init__ 0 0; os := w0 |}).
  vm_compute. discriminate.
Defined.

(** ** C3: [finalize] returns with an empty running set *)

(** C3: whatever the pool, the world, the global timeout and the fuel,
    when [finalize] returns, [self.proc] is the empty list. *)
Theorem finalize_returns_empty (fuel : nat) (timeout verbose : Z) (s : state) :
  out (finalize fuel timeout verbose s) = Ret tt →
  proc (pool (post (finalize fuel timeout verbose s))) = [].
Proof.
  rewrite finalize_unfold. cbn [out post emitted].
  apply finalize_loop_returns.
Qed.

Lemma finalize_returns_empty_witness :
  proc (pool (post (finalize 4 2 1 (pool_of [child1; child2; done3] 0 8)))) = [].
Proof.
  apply (finalize_returns_empty 4 2 1 (pool_of [child1; child2; done3] 0 8)).
  vm_compute. reflexivity.
Defined.

(** ** C4: the timeout of a process *)

(** C4, as amended: in a sweep with [process_timeout = T > 0], a
    tracked process that runs and whose runtime, the difference of two
    readings of the clock in whole seconds, exceeds [T] is sent a kill
    from line 91 and is not in the running set the sweep leaves; the
    kill is issued during the sweep.  When the sweep before this one was
    at most one poll interval (1000 ms) earlier and kept the process, the
    reading of the clock is at most [start_time + T + 1], and the kill
    comes less than two poll intervals after the instant [L + T] at
    which the timeout expired, [L] being the instant of the launch, of
    which [start_time] is the whole seconds. *)
Theorem clean_enforces_timeout (s : state) (p : Popen) :
  0 < process_timeout (pool s) →
  p ∈ proc (pool s) →
  status (os s) p = None →
  process_timeout (pool s) < clock (os s) - start_time p →
  let r := __clean s in
  (Kill at_clean (pid p) ∈ log r) ∧
  (p ∉ proc (pool (post r))) ∧
  (pid p ∈ killed (os (post r))) ∧
  clock (os (post r)) = clock (os s) ∧
  (∀ s0, pool s = pool (post (__clean s0)) →
         clock (os s) ≤ clock (os s0) + 1 →
         clock (os s) ≤ start_time p + process_timeout (pool s) + 1) ∧
  (∀ s0 L, pool s = pool (post (__clean s0)) →
           instant (os s) ≤ instant (os s0) + 1000 →
           millis (os s0) < 1000 →
           start_time p = L `div` 1000 →
           instant (os s) - (L + 1000 * process_timeout (pool s)) < 2000).
Proof.
  intros HT Hin Hst Hrt. cbv zeta. rewrite clean_spec.
  cbn [out post log pool os with_proc proc].
  assert (Hov : over_time (process_timeout (pool s)) (os s) p = true).
  { unfold over_time. apply andb_true_intro. split; by apply Z.ltb_lt. }
  destruct (sweep_over_time _ _ _ _ Hin Hst Hov) as (Hnot&Hkill&Hsig).
  split; [done|]. split; [done|]. split; [done|].
  split; [apply after_sweep_clock|].
  assert (Hkept : ∀ s0, pool s = pool (post (__clean s0)) →
            clock (os s0) ≤ start_time p + process_timeout (pool s)).
  { intros s0 Hpool. rewrite Hpool in Hin, HT |- *.
    rewrite clean_spec in Hin, HT |- *.
    cbn [post pool with_proc proc process_timeout] in Hin, HT |- *.
    apply survivors_spec in Hin as (_&_&Hov0).
    unfold over_time in Hov0. apply andb_false_iff in Hov0 as [Hov0|Hov0];
      apply Z.ltb_ge in Hov0; lia. }
  split.
  - intros s0 Hpool Hclock. specialize (Hkept s0 Hpool). lia.
  - intros s0 L Hpool Hinst Hms HL. specialize (Hkept s0 Hpool).
    pose proof (Z.div_mod L 1000 ltac:(lia)) as Hdiv.
    pose proof (Z.mod_pos_bound L 1000 ltac:(lia)) as Hmod.
    unfold instant in *. lia.
Qed.

(** C4 as stated fails: the job launched at the instant 100.000 under a
    timeout of two seconds, swept once a second from 100.900 on, is kept
    by the sweep at 102.900, 900 ms after its timeout expired, because
    the two readings of the clock differ by 2, and is sent its kill by
    the sweep at 103.900: 1900 ms after the timeout expired, more than
    one poll interval. *)
Lemma clean_kill_lags_two_intervals :
  let s := before_sweep_at_103_9 in
  let p := {| pid := 7; child := forever; start_time := 100 |} in
  proc (pool launched_at_100_0) = [p] ∧
  instant (os launched_at_100_0) = 100000 ∧
  process_timeout (pool s) = 2 ∧
  instant (os before_sweep_at_102_9) = 102900 ∧
  log sweep_at_102_9 = [Poll 7 None; Sleep 1] ∧
  proc (pool s) = [p] ∧
  instant (os s) = 103900 ∧
  log (__clean s) =
    [Poll 7 None; Print (msg_killed_timeout 7 2); Kill at_clean 7] ∧
  ¬ (instant (os s) - (100000 + 1000 * process_timeout (pool s)) ≤ 1000).
Proof.
  cbv zeta. repeat (split; [vm_compute; reflexivity|]).
  vm_compute. intros Hle. by apply Hle.
Qed.

Lemma clean_enforces_timeout_witness :
  let s := before_sweep_at_103_9 in
  let p := {| pid := 7; child := forever; start_time := 100 |} in
  (Kill at_clean 7 ∈ log (__clean s)) ∧
  proc (pool (post (__clean s))) = [] ∧
  clock (os s) ≤ 100 + 2 + 1 ∧
  instant (os s) - (100000 + 1000 * 2) < 2000.
Proof.
  cbv zeta.
  pose (s := before_sweep_at_103_9).
  pose (p := {| pid := 7; child := forever; start_time := 100 |}).
  assert (HT : 0 < process_timeout (pool s)) by (vm_compute; reflexivity).
  assert (Hin : p ∈ proc (pool s)) by (vm_compute; left).
  assert (Hst : status (os s) p = None) by (vm_compute; reflexivity).
  assert (Hrt : process_timeout (pool s) < clock (os s) - start_time p)
    by (vm_compute; reflexivity).
  destruct (clean_enforces_timeout s p HT Hin Hst Hrt)
    as (Hkill&_&_&_&Hread&Hlag).
  split; [exact Hkill|]. split; [vm_compute; reflexivity|]. split.
  - apply (Hread before_sweep_at_102_9).
    + vm_compute. reflexivity.
    + vm_compute. discriminate.
  - apply (Hlag before_sweep_at_102_9 100000).
    + vm_compute. reflexivity.
    + vm_compute. discriminate.
    + vm_compute. reflexivity.
    + vm_compute. reflexivity.
Defined.

(** ** C9: no kill without a poll *)

Lemma wait_round_guarded s : guarded (log (wait_round s)).
Proof.
  rewrite wait_round_spec. cbn [log].
  apply guarded_app; [apply sweep_log_guarded|].
  by repeat constructor.
Qed.

Lemma finalize_round_guarded stime timeout verbose idx s :
  guarded (log (finalize_round stime timeout verbose idx s)).
Proof.
  rewrite finalize_round_spec. cbn [log].
  repeat apply guarded_app.
  - destruct (_ && _); [apply killall_log_guarded | constructor].
  - destruct (_ && _); by repeat constructor.
  - apply sweep_log_guarded.
  - by repeat constructor.
Qed.

(** C9: in the log of a sweep, of [killall], of [run] and of
    [finalize], every kill comes directly after a poll of the same
    process that returned [None] and the message announcing the kill;
    and the processes a sweep or [killall] signals are tracked processes
    that were running when it began.  No kill goes to a process whose
    poll returned an exit code. *)
Theorem kills_follow_running_poll (s : state) :
  guarded (log (__clean s)) ∧
  guarded (log (killall s)) ∧
  (∀ fuel cmd, guarded (log (run fuel cmd s))) ∧
  (∀ fuel timeout verbose, guarded (log (finalize fuel timeout verbose s))) ∧
  (∀ site x, Kill site x ∈ log (__clean s) ∨ Kill site x ∈ log (killall s) →
     ∃ p, p ∈ proc (pool s) ∧ pid p = x ∧ status (os s) p = None).
Proof.
  split; [|split; [|split; [|split]]].
  - rewrite clean_spec. apply sweep_log_guarded.
  - rewrite killall_spec. apply killall_log_guarded.
  - intros fuel cmd. rewrite run_unfold. cbv zeta.
    assert (Hw : guarded (log (run_wait fuel s))).
    { apply (run_wait_invariant (λ _ l, guarded l)) with (l := []) (s := s);
        [|constructor].
      intros s' l Hl. apply guarded_app; [done | apply wait_round_guarded]. }
    destruct (out (run_wait fuel s)); [|done|done].
    destruct (os_exec _ _ cmd); [|done]. cbn [log].
    apply guarded_app; [done | by repeat constructor].
  - intros fuel timeout verbose. rewrite finalize_unfold. cbn [log emitted].
    apply (finalize_loop_invariant (λ _ l, guarded l)).
    + intros idx s' l Hl. apply guarded_app; [done|].
      apply finalize_round_guarded.
    + rewrite clean_spec. apply sweep_log_guarded.
  - intros site x [Hin|Hin].
    + rewrite clean_spec in Hin. cbn [log] in Hin.
      apply sweep_log_kill in Hin as (_&p&?&?&?&_). eauto.
    + rewrite killall_spec in Hin. cbn [log] in Hin.
      apply killall_log_kill in Hin as (_&p&?&?&?). eauto.
Qed.

(** ** C5: the global timeout of [finalize] *)










(** ** C6: [finalize] without a global timeout *)

Lemma bind_ext {A B} (m m' : M A) (f f' : A → M B) s :
  m s = m' s → (∀ a s', f a s' = f' a s') → bind m f s = bind m' f' s.
Proof.
  intros Hm Hf. unfold bind. rewrite Hm.
  destruct (out (m' s)); [by rewrite Hf | done | done].
Qed.

Lemma finalize_round_no_timeout stime verbose idx s :
  finalize_round stime 0 verbose idx s = sweep_only_round stime verbose idx s.
Proof.
  unfold finalize_round, sweep_only_round.
  apply bind_ext; [done|]. intros now s'. cbn [Z.ltb Z.compare andb].
  exact (bind_ret_l tt _ s').
Qed.

Lemma finalize_loop_no_timeout stime verbose fuel : ∀ idx s,
  finalize_loop fuel stime 0 verbose idx s =
  sweep_only_loop fuel stime verbose idx s.
Proof.
  induction fuel as [|fuel IH]; intros idx s; simpl;
    apply bind_ext; try done; intros self s';
    destruct (0 <? Z.of_nat (length (proc self))); try done.
  apply bind_ext; [apply finalize_round_no_timeout|]. intros _ s''. apply IH.
Qed.

Lemma finalize_no_timeout fuel verbose s :
  finalize fuel 0 verbose s = sweep_only_drain fuel verbose s.
Proof.
  unfold finalize, sweep_only_drain.
  apply bind_ext; [done|]. intros _ s1.
  apply bind_ext; [done|]. intros stime s2.
  apply bind_ext; [done|]. intros _ s3.
  apply finalize_loop_no_timeout.
Qed.

Section SweptFrom.
Variable s0 : state.
Implicit Types (s : state) (l : list event).

Lemma swept_from_start : swept_from s0 s0 [].
Proof.
  unfold swept_from. split; [done|]. split; [apply later_refl|].
  split; [done|]. split; [by left|]. split; [by intros ?? ?%elem_of_nil|].
  by left.
Qed.

Lemma swept_from_sweep s l :
  swept_from s0 s l →
  swept_from s0 (post (__clean s)) (l ++ log (__clean s)).
Proof.
  intros (HT&Hl&Hsub&Hcov&Hkills&Hrec).
  rewrite clean_spec. cbn [post log]. unfold swept_from.
  cbn [pool os with_proc proc process_timeout].
  split; [done|].
  split; [eapply later_trans; [done | apply after_sweep_later]|].
  split; [|split; [|split]].
  - intros p (Hp&_&_)%survivors_spec. by apply Hsub.
  - intros p Hp. destruct (Hcov p Hp) as [Hin|[Hgone|Hsig]].
    + by apply swept_or_signalled.
    + right. left. by apply (gone_later (os s)); [apply after_sweep_later|].
    + right. right. by apply after_sweep_killed_mono.
  - intros site x [Hin|Hin]%elem_of_app; [by apply Hkills|].
    apply sweep_log_kill in Hin as (->&p&Hp&Hx&_&Hov).
    split; [done|]. split.
    + rewrite <- HT. unfold over_time in Hov.
      apply andb_true_iff in Hov as [Hov _]. by apply Z.ltb_lt.
    + exists p. split; [by apply Hsub | done].
  - intros x [Hx|Hx]%after_sweep_killed.
    + destruct (Hrec x Hx); [by left | right]. apply elem_of_app. by left.
    + right. apply elem_of_app. by right.
Qed.

Lemma swept_from_print s l m :
  swept_from s0 s l → swept_from s0 s (l ++ [Print m]).
Proof.
  intros (HT&Hl&Hsub&Hcov&Hkills&Hrec).
  unfold swept_from. do 4 (split; [done|]). split.
  - intros site x [Hin|Hin]%elem_of_app; [by apply Hkills|].
    by apply list_elem_of_singleton in Hin.
  - intros x Hx. destruct (Hrec x Hx); [by left | right].
    apply elem_of_app. by left.
Qed.

Lemma swept_from_sleep s l :
  swept_from s0 s l →
  swept_from s0 (post (time_sleep 1 s)) (l ++ log (time_sleep 1 s)).
Proof.
  intros (HT&Hl&Hsub&Hcov&Hkills&Hrec).
  unfold swept_from, time_sleep. cbn [post log pool os].
  split; [done|].
  split; [eapply later_trans; [done | apply advance_later; lia]|].
  split; [done|]. split; [|split].
  - intros p Hp. destruct (Hcov p Hp) as [Hin|[Hgone|Hsig]];
      [by left | right; left | by right; right].
    by apply (gone_later (os s)); [apply advance_later; lia|].
  - intros site x [Hin|Hin]%elem_of_app; [by apply Hkills|].
    by apply list_elem_of_singleton in Hin.
  - intros x Hx. destruct (Hrec x Hx); [by left | right].
    apply elem_of_app. by left.
Qed.

Lemma swept_from_round stime verbose idx s l :
  swept_from s0 s l →
  let r := finalize_round stime 0 verbose idx s in
  swept_from s0 (post r) (l ++ log r).
Proof.
  intros HI. cbv zeta.
  pose proof (finalize_round_spec stime 0 verbose idx s) as Hspec.
  cbv zeta in Hspec. cbn [Z.ltb Z.compare andb] in Hspec.
  rewrite Hspec. cbn [post log app].
  assert (Hmsg : swept_from s0 s
    (l ++ (if (0 <? verbose) && (idx `mod` 10 =? 0)
           then [Print (msg_waiting (length (proc (pool s)))
                          (clock (os s) - stime))] else []))).
  { destruct (_ && _); [by apply swept_from_print | by rewrite app_nil_r]. }
  apply swept_from_sweep, swept_from_sleep in Hmsg.
  rewrite clean_spec in Hmsg. unfold time_sleep in Hmsg.
  cbn [post log pool os] in Hmsg. by rewrite <- !app_assoc in Hmsg.
Qed.

Lemma swept_from_finalize fuel verbose :
  let r := finalize fuel 0 verbose s0 in
  swept_from s0 (post r) (log r).
Proof.
  cbv zeta. rewrite finalize_unfold. cbn [post log emitted].
  apply (finalize_loop_invariant (swept_from s0)).
  - intros idx s l. apply swept_from_round.
  - apply (swept_from_sweep s0 []), swept_from_start.
Qed.
End SweptFrom.

(** C6: a drain with global timeout [0] is the drain that only sweeps:
    it never gets to line 125.  Whatever the fuel, every kill in its log
    was issued by a sweep, from line 91, under a timeout of the
    processes that is set, to a process tracked when the drain began;
    [killall] issues none.  And when the drain returns, every process
    tracked at its start has exited by itself, or had been killed before
    the drain began, or was killed by such a sweep. *)
Theorem finalize_without_global_timeout (fuel : nat) (verbose : Z) (s : state) :
  let r := finalize fuel 0 verbose s in
  r = sweep_only_drain fuel verbose s ∧
  (∀ site x, Kill site x ∈ log r →
     site = at_clean ∧ 0 < process_timeout (pool s) ∧
     ∃ p, p ∈ proc (pool s) ∧ pid p = x) ∧
  (∀ x, Kill at_killall x ∉ log r) ∧
  (out r = Ret tt →
   proc (pool (post r)) = [] ∧
   ∀ p, p ∈ proc (pool s) →
     (∃ t, exit_at (child p) = Some t ∧ t ≤ clock (os (post r))) ∨
     pid p ∈ killed (os s) ∨
     Kill at_clean (pid p) ∈ log r).
Proof.
  cbv zeta. split; [apply finalize_no_timeout|].
  destruct (swept_from_finalize s fuel verbose)
    as (HT&Hl&Hsub&Hcov&Hkills&Hrec).
  split; [done|]. split.
  - intros x Hin. by apply Hkills in Hin as [? _].
  - intros Hout.
    assert (Hnil : proc (pool (post (finalize fuel 0 verbose s))) = []).
    { revert Hout. rewrite finalize_unfold. apply finalize_loop_returns. }
    split; [done|]. intros p Hp.
    destruct (Hcov p Hp) as [Hin|[Hgone|Hsig]].
    { rewrite Hnil in Hin. by apply elem_of_nil in Hin. }
    2: { right. by apply Hrec. }
    unfold gone, status, kill_shows in Hgone.
    destruct (dying (os (post (finalize fuel 0 verbose s))) !! pid p)
      as [t'|] eqn:Hx.
    + right. apply Hrec. unfold killed. apply elem_of_dom. eauto.
    + left. destruct (exit_at (child p)) as [t|]; [|done].
      exists t. split; [done|].
      by destruct (Z.leb_spec t (clock (os (post (finalize fuel 0 verbose s))))).
Qed.

(** ** C10: from a URL to a file name and back *)

Section Strings.
Local Open Scope char_scope.
Implicit Types (s r : string) (a b c : ascii).

Lemma lstrip_slashes_id s : leading_slash s = false → lstrip_slashes s = s.
Proof. destruct s as [|c s]; simpl; [done|]. by intros ->. Qed.

Lemma sub_scheme_http r :
  leading_slash r = false → sub_scheme ("http://" +:+ r) = r.
Proof. intros Hr. unfold sub_scheme, match_scheme. simpl. by apply lstrip_slashes_id. Qed.

(** A run of slashes up to the end, or up to a final newline, shows
    at the end of the string. *)
Lemma slash_run_end_Some s e :
  slash_run_end s = Some e →
  trailing_slash (String "/" s) = true ∨
  trailing_slash_newline (String "/" s) = true.
Proof.
  induction s as [|c s IH]; [by left|]. cbn [slash_run_end].
  destruct (Ascii.eqb_spec c "/") as [->|Hc].
  - intros [Ht|Ht]%IH.
    + left. by destruct s.
    + right. by destruct s.
  - destruct (Ascii.eqb_spec c newline) as [->|]; [|done].
    destruct s; [|done]. by right.
Qed.

Lemma sub_trailing_slashes_id s :
  trailing_slash s = false → trailing_slash_newline s = false →
  sub_trailing_slashes s = s.
Proof.
  induction s as [|c s IH]; [done|]. intros Ht Hn.
  assert (Htail : sub_trailing_slashes s = s).
  { apply IH.
    - destruct s; [done|]. exact Ht.
    - destruct s as [|c2 [|c3 s]]; [done|done|]. exact Hn. }
  cbn [sub_trailing_slashes]. rewrite Htail.
  destruct (Ascii.eqb_spec c "/") as [->|]; [|done].
  destruct (slash_run_end s) as [e|] eqn:He; [|done].
  apply slash_run_end_Some in He as [He|He]; congruence.
Qed.

Lemma replace_char_absent a b s :
  contains a s = false → replace_char a b s = s.
Proof.
  induction s as [|c s IH]; simpl; [done|].
  intros [-> Hs]%orb_false_elim. by rewrite IH.
Qed.

Lemma replace_char_app a b s r :
  replace_char a b (s +:+ r) = (replace_char a b s +:+ replace_char a b r)%string.
Proof. induction s as [|c s IH]; simpl; [done|]. by rewrite IH. Qed.

Lemma replace_char_back a b s :
  contains b s = false → replace_char b a (replace_char a b s) = s.
Proof.
  induction s as [|c s IH]; simpl; [done|].
  intros [Hc Hs]%orb_false_elim. rewrite IH by done. f_equal.
  destruct (Ascii.eqb_spec c a) as [->|Hca].
  - by rewrite Ascii.eqb_refl.
  - by rewrite Hc.
Qed.

Lemma contains_replace_char a b c s :
  c ≠ b → contains c s = false → contains c (replace_char a b s) = false.
Proof.
  intros Hcb. induction s as [|d s IH]; simpl; [done|].
  intros [Hd Hs]%orb_false_elim. rewrite IH by done.
  destruct (Ascii.eqb d a); [|by rewrite Hd].
  by destruct (Ascii.eqb_spec b c) as [->|].
Qed.

Lemma contains_replaced a b s :
  a ≠ b → contains a (replace_char a b s) = false.
Proof.
  intros Hab. induction s as [|c s IH]; simpl; [done|]. rewrite IH.
  destruct (Ascii.eqb_spec c a) as [->|Hca].
  - by destruct (Ascii.eqb_spec b a) as [->|].
  - by destruct (Ascii.eqb_spec c a).
Qed.

Lemma slash_ahead_absent s : contains "/" s = false → slash_ahead s = false.
Proof.
  induction s as [|c s IH]; simpl; [done|].
  intros [-> Hs]%orb_false_elim. rewrite IH by done.
  by destruct (Ascii.eqb c newline).
Qed.

Lemma sub_dirs_id s : contains "/" s = false → sub_dirs s = s.
Proof.
  induction s as [|c s IH]; [done|]. intros Hc.
  cbn [sub_dirs]. rewrite (slash_ahead_absent _ Hc).
  simpl in Hc. apply orb_false_elim in Hc as [_ Hs]. by rewrite IH.
Qed.

(** The round trip under the conditions it needs. *)
Lemma url_roundtrip r :
  contains "+" r = false → contains " " r = false →
  leading_slash r = false → trailing_slash r = false →
  trailing_slash_newline r = false →
  guessUrlFromFilename (url2filename ("http://" +:+ r)) = ("http://" +:+ r)%string.
Proof.
  intros Hplus Hsp Hlead Htrail Hnl.
  unfold url2filename, guessUrlFromFilename.
  rewrite sub_scheme_http by done.
  rewrite sub_trailing_slashes_id by done.
  rewrite (replace_char_absent " " "_");
    last by apply contains_replace_char.
  rewrite sub_dirs_id; last by apply contains_replaced.
  by rewrite replace_char_app, replace_char_back.
Qed.
End Strings.

(** C10, as amended: for a URL made of ["http://"] and a remainder that
    is not empty, has no ["+"], no ["_"], no space, no two slashes in a
    row, no slash at its end, and moreover does not begin with a slash
    and does not end in a slash followed by a newline,
    [guessUrlFromFilename (url2filename url) = url]. *)
Theorem url2filename_roundtrip (r : string) :
  r ≠ ""%string →
  contains "+" r = false →
  contains "_" r = false →
  contains " " r = false →
  consecutive_slashes r = false →
  trailing_slash r = false →
  leading_slash r = false →
  trailing_slash_newline r = false →
  guessUrlFromFilename (url2filename ("http://" +:+ r)) = ("http://" +:+ r)%string.
Proof. intros _ Hplus _ Hsp _ Htrail Hlead Hnl. by apply url_roundtrip. Qed.

Lemma url2filename_roundtrip_witness :
  guessUrlFromFilename (url2filename "http://foo.bar/bla/baz.tar") =
  "http://foo.bar/bla/baz.tar"%string.
Proof.
  apply (url2filename_roundtrip "foo.bar/bla/baz.tar");
    [discriminate | reflexivity..].
Defined.

(** C10 as stated fails in two ways.  A remainder that begins with a
    slash loses it, since the slashes after the scheme are taken as
    one run; a remainder that ends in a slash and a newline loses the
    slash, since ["$"] also matches in front of a final newline.  Both
    remainders meet every condition of the claim. *)
Lemma url2filename_roundtrip_fails :
  let conditions r :=
    r ≠ ""%string ∧ contains "+" r = false ∧ contains "_" r = false ∧
    contains " " r = false ∧ consecutive_slashes r = false ∧
    trailing_slash r = false in
  let r1 := "/a"%string in
  let r2 := String "a" (String "/" (String newline EmptyString)) in
  conditions r1 ∧
  url2filename ("http://" +:+ r1) = "a"%string ∧
  guessUrlFromFilename (url2filename ("http://" +:+ r1)) ≠ ("http://" +:+ r1)%string ∧
  conditions r2 ∧
  guessUrlFromFilename (url2filename ("http://" +:+ r2)) ≠ ("http://" +:+ r2)%string.
Proof. cbv zeta. repeat split; (discriminate || reflexivity). Qed.


(** ** Runs of the model on the sample data *)

(** Three jobs under a limit of three and a timeout of two seconds for
    each process, then a drain without global timeout: nobody waits,
    the three children are killed by the sweep at second three, and the
    drain returns one poll interval later. *)
Example three_jobs_timeout :
  let r := (run_seq [(0%nat, ["wget"; "a"]); (0%nat, ["wget"; "b"]);
                     (0%nat, ["wget"; "c"])] ;;
            finalize 10 0 1) {| pool := __init__ 2 3; os := w0 |} in
  out r = Ret tt ∧
  kills (log r) = [(at_clean, 7); (at_clean, 8); (at_clean, 9)] ∧
  clock (os (post r)) = clock w0 + 4.
Proof. vm_compute. done. Qed.

(** Without any timeout a child that never exits keeps the drain in its
    loop, and nothing is killed. *)
Example drain_waits_forever :
  let r := finalize 25 0 1 (pool_of [child1; done3] 0 8) in
  out r = Diverge ∧ kills (log r) = [] ∧ proc (pool (post r)) = [child1].
Proof. vm_compute. done. Qed.

(** A third job under a limit of two waits, one round, for the child
    that exits at second 101. *)
Example third_job_waits :
  let short := {| pid := 4; child := {| exit_at := Some 101; exit_code := 0 |};
                  start_time := 100 |} in
  let r := run 5 ["wget"; "c"] (pool_of [child1; short] 0 2) in
  out r = Ret tt ∧
  log r = [Poll 1 None; Poll 4 None; Sleep 1;
           Poll 1 None; Poll 4 (Some 0); Sleep 1; Spawn ["wget"; "c"] 7] ∧
  pid <$> proc (pool (post r)) = [1; 7].
Proof. vm_compute. done. Qed.


(** * Further properties of the pool *)

(** ** Sweeps *)

Lemma sweep_log_kills_nil T ps : ∀ w,
  T ≤ 0 →
  after_sweep T w ps = w ∧ kills (sweep_log T w ps) = [] ∧
  survivors T w ps = filter (λ p, status w p = None) ps.
Proof.
  induction ps as [|p ps IH]; intros w HT; [done|].
  assert (Hov : over_time T w p = false).
  { unfold over_time. by destruct (Z.ltb_spec 0 T); [lia|]. }
  destruct (IH w HT) as (Hw&Hk&Hs). simpl. rewrite Hov, filter_cons.
  destruct (status w p) as [rc|] eqn:Hst.
  - rewrite decide_False by done. done.
  - rewrite decide_True by done. by rewrite Hs.
Qed.

(** X1: a sweep only removes.  What it leaves is a sublist of what it
    found, so the order of the tracked processes is kept; everybody left
    was running when the sweep began and was not over a timeout that is
    set; a tracked process that had exited is dropped; the two limits
    of the pool and the clock are as before. *)
Theorem clean_only_removes (s : state) :
  let r := __clean s in
  out r = Ret tt ∧
  proc (pool (post r)) `sublist_of` proc (pool s) ∧
  (∀ p, p ∈ proc (pool (post r)) →
     status (os s) p = None ∧
     ¬ (0 < process_timeout (pool s) ∧
        process_timeout (pool s) < clock (os s) - start_time p)) ∧
  (∀ p, p ∈ proc (pool s) → gone (os s) p → p ∉ proc (pool (post r))) ∧
  process_timeout (pool (post r)) = process_timeout (pool s) ∧
  max_processes (pool (post r)) = max_processes (pool s) ∧
  clock (os (post r)) = clock (os s).
Proof.
  cbv zeta. rewrite clean_spec.
  cbn [out post pool os with_proc proc process_timeout max_processes].
  split; [done|]. split; [apply survivors_sublist|]. split; [|split].
  - intros p (_&Hst&Hov)%survivors_spec. split; [done|].
    intros [HT Hrt]. unfold over_time in Hov.
    apply andb_false_iff in Hov as [Hov|Hov]; apply Z.ltb_ge in Hov; lia.
  - intros p _ Hgone (_&Hst&_)%survivors_spec. by apply Hgone.
  - split; [done|]. split; [done|]. apply after_sweep_clock.
Qed.

(** X2: [process_timeout <= 0] switches the timeout off.  A sweep then
    sends no kill, leaves the world as it is, and keeps exactly the
    tracked processes that are running, in their order. *)
Theorem clean_without_timeout (s : state) :
  process_timeout (pool s) ≤ 0 →
  let r := __clean s in
  kills (log r) = [] ∧
  os (post r) = os s ∧
  proc (pool (post r)) =
    filter (λ p, status (os s) p = None) (proc (pool s)).
Proof.
  intros HT. cbv zeta. rewrite clean_spec.
  cbn [post log pool os with_proc proc].
  by destruct (sweep_log_kills_nil _ (proc (pool s)) (os s) HT) as (->&->&->).
Qed.

Lemma clean_without_timeout_witness :
  let r := __clean (pool_of [child1; done3; child2] 0 8) in
  kills (log r) = [] ∧ proc (pool (post r)) = [child1; child2].
Proof.
  cbv zeta.
  assert (HT : process_timeout (pool (pool_of [child1; done3; child2] 0 8)) ≤ 0)
    by (simpl; lia).
  destruct (clean_without_timeout _ HT) as (Hk&_&Hp).
  split; [exact Hk|]. rewrite Hp. vm_compute. reflexivity.
Defined.

(** ** [killall] twice *)

Lemma killall_all_gone ps : ∀ w,
  (∀ p, p ∈ ps → gone w p) →
  after_killall w ps = w ∧ kills (killall_log w ps) = [].
Proof.
  induction ps as [|p ps IH]; intros w Hall; [done|]. simpl.
  destruct (status w p) as [rc|] eqn:Hst.
  - apply IH. intros q Hq. apply Hall. by right.
  - by destruct (Hall p); [left|].
Qed.

(** A [killall] over processes that are dying in time already leaves
    the world as it is. *)
Lemma after_killall_again ps w :
  (∀ p, p ∈ ps → dies_by (instant w + kill_lag w) w p) →
  after_killall w ps = w.
Proof.
  induction ps as [|p ps IH]; intros Hall; simpl; [done|].
  assert (Hw : deliver_kill w p = w) by (apply deliver_kill_again, Hall; by left).
  destruct (status w p); rewrite ?Hw; apply IH; intros q Hq; apply Hall;
    by right.
Qed.

(** X3: [killall] is idempotent.  A second call right after the first
    leaves pool and world as the first call left them.  It repeats the
    signal only for processes that the first call signalled and that
    [poll] still reports running, and where a kill shows at once it
    sends no signal at all. *)
Theorem killall_idempotent (s : state) :
  let r1 := killall s in
  let r2 := killall (post r1) in
  out r2 = Ret tt ∧
  post r2 = post r1 ∧
  (∀ site x, Kill site x ∈ log r2 →
     Kill at_killall x ∈ log r1 ∧
     ∃ p, p ∈ proc (pool s) ∧ pid p = x ∧ status (os (post r1)) p = None) ∧
  (kill_lag (os s) ≤ 0 → kills (log r2) = []).
Proof.
  cbv zeta. rewrite (killall_spec (post (killall s))), (killall_spec s).
  cbn [out post log pool os]. split; [done|].
  set (ps := proc (pool s)). set (w1 := after_killall (os s) ps).
  assert (Hw1 : after_killall w1 ps = w1).
  { apply after_killall_again. intros p Hp. unfold w1.
    destruct (after_killall_later ps (os s)) as (_&_&->&_).
    rewrite after_killall_instant. by apply after_killall_dies. }
  rewrite Hw1. split; [done|]. split.
  - intros site x (_&p&Hp&Hx&Hst)%killall_log_kill. split; [|by eauto].
    subst x. apply killall_log_running; [done|].
    exact (status_None_earlier (os s) w1 p (after_killall_later ps (os s)) Hst).
  - intros Hlag. apply killall_all_gone.
    intros p Hp. by apply after_killall_gone.
Qed.

(** ** Admission *)

Lemma spawned_sweep_log T ps : ∀ w, spawned (sweep_log T w ps) = [].
Proof.
  induction ps as [|p ps IH]; intros w; simpl; [done|].
  destruct (status w p); [apply IH|].
  destruct (over_time T w p); apply IH.
Qed.

Lemma spawned_run_wait fuel s : spawned (log (run_wait fuel s)) = [].
Proof.
  apply (run_wait_invariant (λ _ l, spawned l = [])) with (l := []) (s := s);
    [|done].
  intros s' l Hl. rewrite wait_round_spec. cbn [log]. unfold spawned in *.
  rewrite !omap_app, Hl. fold (spawned (sweep_log (process_timeout (pool s'))
    (os s') (proc (pool s')))). by rewrite spawned_sweep_log.
Qed.

Lemma spawned_run fuel cmd s :
  spawned (log (run fuel cmd s)) =
  match out (run fuel cmd s) with Ret _ => [cmd] | _ => [] end.
Proof.
  pose proof (spawned_run_wait fuel s) as Hw.
  rewrite run_unfold. cbv zeta.
  destruct (out (run_wait fuel s)); [|done|done].
  destruct (os_exec _ _ cmd); cbn [out log]; [|done].
  unfold spawned in *. by rewrite omap_app, Hw.
Qed.

(** X4: jobs are launched in the order in which they are submitted.
    The commands launched by a sequence of calls of [run] are a prefix
    of the commands submitted, and all of them once every call has
    returned. *)
Theorem run_seq_submission_order (jobs : list (nat * list string)) (s : state) :
  let r := run_seq jobs s in
  spawned (log r) `prefix_of` jobs.*2 ∧
  (out r = Ret tt → spawned (log r) = jobs.*2).
Proof.
  cbv zeta. revert s. induction jobs as [|[fuel cmd] jobs IH]; intros s.
  { simpl. split; [by exists [] | done]. }
  cbn [run_seq fmap list_fmap snd]. unfold bind.
  pose proof (spawned_run fuel cmd s) as Hrun.
  destruct (out (run fuel cmd s)) as [[]|e|]; cbn [out log emitted].
  - unfold spawned in *. rewrite omap_app, Hrun.
    destruct (IH (post (run fuel cmd s))) as [Hpre Heq]. split.
    + by apply (prefix_app [cmd]).
    + intros Hout. by rewrite (Heq Hout).
  - rewrite Hrun. split; [apply prefix_nil | done].
  - rewrite Hrun. split; [apply prefix_nil | done].
Qed.

(** X5: with room in the pool [run] admits at once.  Whatever the fuel,
    it neither sweeps nor sleeps: the clock stands still, the only thing
    logged is the launch, and the new process, started at the present
    instant, is appended behind the tracked ones. *)
Theorem run_admits_at_once (fuel : nat) (cmd : list string) (s : state) (f : fate) :
  Z.of_nat (length (proc (pool s))) < max_processes (pool s) →
  os_exec (os s) (clock (os s)) cmd = Some f →
  let r := run fuel cmd s in
  out r = Ret tt ∧
  log r = [Spawn cmd (next_pid (os s))] ∧
  clock (os (post r)) = clock (os s) ∧
  killed (os (post r)) = killed (os s) ∧
  proc (pool (post r)) =
    proc (pool s) ++ [{| pid := next_pid (os s); child := f;
                         start_time := clock (os s) |}].
Proof.
  intros Hroom Hexec. cbv zeta. rewrite run_unfold. cbv zeta.
  rewrite run_wait_unfold.
  destruct (Z.leb_spec (max_processes (pool s))
              (Z.of_nat (length (proc (pool s))))); [lia|].
  cbn [out post log]. by rewrite Hexec.
Qed.

Lemma run_admits_at_once_witness :
  let r := run 0 ["wget"; "a"] (pool_of [child1] 0 2) in
  out r = Ret tt ∧ log r = [Spawn ["wget"; "a"] 7].
Proof.
  cbv zeta.
  assert (Hroom : Z.of_nat (length (proc (pool (pool_of [child1] 0 2)))) <
                  max_processes (pool (pool_of [child1] 0 2)))
    by (simpl; lia).
  assert (Hexec : os_exec (os (pool_of [child1] 0 2))
                    (clock (os (pool_of [child1] 0 2))) ["wget"; "a"] =
                  Some forever) by reflexivity.
  destruct (run_admits_at_once 0 ["wget"; "a"] _ forever Hroom Hexec)
    as (Hout&Hlog&_).
  split; [exact Hout | exact Hlog].
Defined.

(** ** Progress under a timeout of the processes *)










(** ** Edges of [finalize] *)

Lemma finalize_round_disabled stime timeout verbose idx s :
  timeout ≤ 0 →
  finalize_round stime timeout verbose idx s =
  sweep_only_round stime verbose idx s.
Proof.
  intros HG. unfold finalize_round, sweep_only_round.
  apply bind_ext; [done|]. intros now s'.
  destruct (Z.ltb_spec 0 timeout); [lia|]. cbn [andb].
  exact (bind_ret_l tt _ s').
Qed.

Lemma finalize_loop_disabled stime timeout verbose fuel : ∀ idx s,
  timeout ≤ 0 →
  finalize_loop fuel stime timeout verbose idx s =
  sweep_only_loop fuel stime verbose idx s.
Proof.
  induction fuel as [|fuel IH]; intros idx s HG; simpl;
    apply bind_ext; try done; intros self s';
    destruct (0 <? Z.of_nat (length (proc self))); try done.
  apply bind_ext; [by apply finalize_round_disabled|].
  intros _ s''. by apply IH.
Qed.

(** X8: a global timeout below zero counts as none.  For every
    [timeout <= 0], [finalize] is the drain that only sweeps: it never
    calls [killall], however long it waits. *)
Theorem finalize_negative_timeout (fuel : nat) (timeout verbose : Z) (s : state) :
  timeout ≤ 0 →
  finalize fuel timeout verbose s = sweep_only_drain fuel verbose s ∧
  (∀ x, Kill at_killall x ∉ log (finalize fuel timeout verbose s)).
Proof.
  intros HG.
  assert (Heq : finalize fuel timeout verbose s = finalize fuel 0 verbose s).
  { unfold finalize.
    apply bind_ext; [done|]. intros _ s1.
    apply bind_ext; [done|]. intros stime s2.
    apply bind_ext; [done|]. intros _ s3.
    rewrite finalize_loop_disabled by done.
    symmetry. by apply finalize_loop_disabled. }
  split.
  - rewrite Heq. apply finalize_no_timeout.
  - intros x Hin. rewrite Heq in Hin.
    destruct (swept_from_finalize s fuel verbose) as (_&_&_&_&Hkills&_).
    by apply Hkills in Hin as [? _].
Qed.

Lemma finalize_negative_timeout_witness :
  finalize 3 (-5) 1 (pool_of [child1; done3] 0 8) =
  sweep_only_drain 3 1 (pool_of [child1; done3] 0 8).
Proof.
  assert (HG : -5 ≤ 0) by lia.
  exact (proj1 (finalize_negative_timeout 3 (-5) 1
                  (pool_of [child1; done3] 0 8) HG)).
Defined.

Lemma sweep_log_all_gone T ps w :
  (∀ p, p ∈ ps → gone w p) →
  sweep_log T w ps = (λ p, Poll (pid p) (status w p)) <$> ps.
Proof.
  induction ps as [|p ps IH]; [done|]. intros Hall. simpl.
  destruct (status w p) as [rc|] eqn:Hst.
  - rewrite IH; [done|]. intros q Hq. apply Hall. by right.
  - by destruct (Hall p); [left|].
Qed.

(** X9: nothing to wait for.  When every tracked process has already
    exited (in particular when the pool is empty), [finalize] returns at
    once, whatever its fuel and timeout: it polls each process once,
    sends no kill, prints nothing, does not sleep, and leaves an empty
    running set in an unchanged world. *)
Theorem finalize_nothing_to_wait_for
    (fuel : nat) (timeout verbose : Z) (s : state) :
  (∀ p, p ∈ proc (pool s) → gone (os s) p) →
  let r := finalize fuel timeout verbose s in
  out r = Ret tt ∧
  proc (pool (post r)) = [] ∧
  os (post r) = os s ∧
  log r = (λ p, Poll (pid p) (status (os s) p)) <$> proc (pool s).
Proof.
  intros Hall. cbv zeta. rewrite finalize_unfold, clean_spec.
  cbn [out post log emitted].
  destruct (sweep_all_gone (process_timeout (pool s)) _ _ Hall) as [Hnil Hw].
  rewrite finalize_loop_unfold. cbn [pool with_proc proc].
  rewrite Hnil, Hw. cbn [length out post log pool os with_proc proc]. simpl.
  by rewrite app_nil_r, sweep_log_all_gone.
Qed.

Lemma finalize_nothing_to_wait_for_witness :
  let r := finalize 0 9 1 (pool_of [done3] 4 8) in
  out r = Ret tt ∧ log r = [Poll 3 (Some 0)].
Proof.
  cbv zeta.
  assert (Hall : ∀ p, p ∈ proc (pool (pool_of [done3] 4 8)) →
                      gone (os (pool_of [done3] 4 8)) p).
  { intros p Hp. simpl in Hp. apply elem_of_cons in Hp as [->|Hp].
    - vm_compute. discriminate.
    - by apply elem_of_nil in Hp. }
  destruct (finalize_nothing_to_wait_for 0 9 1 _ Hall) as (Hout&_&_&Hlog).
  split; [exact Hout|]. rewrite Hlog. reflexivity.
Defined.

(** * Further properties of the file names *)

Section FileNames.
Local Open Scope char_scope.
Implicit Types (s r : string) (a b c : ascii).

Lemma strip_prefix_contains pre : ∀ s t a,
  strip_prefix pre s = Some t → contains a t = true → contains a s = true.
Proof.
  induction pre as [|x pre IH]; intros s t a; simpl.
  - by intros [= ->].
  - destruct s as [|c s]; [done|]. destruct (Ascii.eqb x c); [|done].
    intros Hs Ht. simpl. rewrite (IH _ _ _ Hs Ht). apply orb_true_r.
Qed.

Lemma colon_slashes_contains t r :
  colon_slashes t = Some r → contains "/" t = true.
Proof.
  destruct t as [|c1 [|c2 t]]; simpl; try done.
  destruct (Ascii.eqb c1 ":"); [|done].
  destruct (Ascii.eqb_spec c2 "/") as [->|]; [|done].
  intros _. simpl. apply orb_true_r.
Qed.

Lemma try_scheme_None pre s :
  contains "/" s = false → strip_prefix pre s ≫= colon_slashes = None.
Proof.
  intros Hs. destruct (strip_prefix pre s) as [t|] eqn:Hpre; [|done]. simpl.
  destruct (colon_slashes t) as [r|] eqn:Hc; [|done].
  apply colon_slashes_contains in Hc.
  by rewrite (strip_prefix_contains _ _ _ _ Hpre Hc) in Hs.
Qed.

Lemma sub_scheme_no_slash s : contains "/" s = false → sub_scheme s = s.
Proof.
  intros Hs. unfold sub_scheme, match_scheme.
  by rewrite !try_scheme_None.
Qed.

Lemma sub_trailing_slashes_no_slash s :
  contains "/" s = false → sub_trailing_slashes s = s.
Proof.
  induction s as [|c s IH]; simpl; [done|].
  intros [-> Hs]%orb_false_elim. by rewrite IH.
Qed.

Lemma slash_ahead_dir dir r :
  contains newline dir = false → slash_ahead (dir +:+ String "/" r) = true.
Proof.
  induction dir as [|c dir IH]; simpl; [done|].
  intros [-> Hd]%orb_false_elim. rewrite IH by done.
  by destruct (Ascii.eqb c "/").
Qed.

Lemma sub_dirs_dir dir r :
  contains newline dir = false →
  sub_dirs (dir +:+ String "/" r) = sub_dirs r.
Proof.
  induction dir as [|c dir IH]; [done|].
  intros Hd. change (String c dir +:+ String "/" r)
    with (String c (dir +:+ String "/" r)).
  cbn [sub_dirs]. change (String c (dir +:+ String "/" r))
    with (String c dir +:+ String "/" r).
  rewrite slash_ahead_dir by done.
  simpl in Hd. apply orb_false_elim in Hd as [_ Hd]. by apply IH.
Qed.
End FileNames.

(** X10: the name [url2filename] makes is a plain file name: whatever
    the URL, it contains no slash and no space. *)
Theorem url2filename_flat (url : string) :
  contains "/" (url2filename url) = false ∧
  contains " " (url2filename url) = false.
Proof.
  unfold url2filename. split.
  - apply contains_replace_char; [done|]. by apply contains_replaced.
  - by apply contains_replaced.
Qed.

Lemma lstrip_slashes_slashes n r :
  lstrip_slashes (slashes n +:+ r) = lstrip_slashes r.
Proof. induction n as [|n IH]; [done | by simpl]. Qed.

(** X11: [url2filename] forgets the scheme.  Each of the four schemes
    it knows, followed by a colon and any number of slashes from one
    on, gives the same name for the same remainder: the name of
    ["http://"] followed by the remainder. *)
Theorem url2filename_scheme_blind (n : nat) (r : string) :
  let rest := ":" +:+ slashes (S n) +:+ r in
  url2filename ("http" +:+ rest) = url2filename ("http://" +:+ r) ∧
  url2filename ("https" +:+ rest) = url2filename ("http://" +:+ r) ∧
  url2filename ("ftp" +:+ rest) = url2filename ("http://" +:+ r) ∧
  url2filename ("file" +:+ rest) = url2filename ("http://" +:+ r).
Proof.
  assert (Hhttp : sub_scheme ("http://" +:+ r) = lstrip_slashes r)
    by (unfold sub_scheme, match_scheme; by simpl).
  cbv zeta. unfold url2filename. rewrite Hhttp.
  unfold sub_scheme, match_scheme. simpl.
  by rewrite lstrip_slashes_slashes.
Qed.

(** X12: [url2filename] leaves the names it makes alone: applied to its
    own result it returns it unchanged. *)
Theorem url2filename_idempotent (url : string) :
  url2filename (url2filename url) = url2filename url.
Proof.
  assert (Hslash : contains "/" (url2filename url) = false).
  { unfold url2filename.
    apply contains_replace_char; [done|]. by apply contains_replaced. }
  assert (Hspace : contains " " (url2filename url) = false).
  { unfold url2filename. by apply contains_replaced. }
  unfold url2filename at 1.
  rewrite sub_scheme_no_slash, sub_trailing_slashes_no_slash by done.
  rewrite (replace_char_absent "/" "+") by done.
  by apply replace_char_absent.
Qed.

(** X13: the URL [guessUrlFromFilename] makes always begins with
    ["http://"] and contains no ["+"]. *)
Theorem guessUrlFromFilename_http (filename : string) :
  (∃ rest, guessUrlFromFilename filename = "http://" +:+ rest) ∧
  contains "+" (guessUrlFromFilename filename) = false.
Proof.
  unfold guessUrlFromFilename. split.
  - exists (replace_char "+" "/" (sub_dirs filename)).
    by rewrite replace_char_app.
  - by apply contains_replaced.
Qed.

(** X14: [guessUrlFromFilename] strips the path of the file.  A
    directory part without newline, up to and including a slash, makes
    no difference to the URL. *)
Theorem guessUrlFromFilename_strips_path (dir name : string) :
  contains newline dir = false →
  guessUrlFromFilename (dir +:+ "/" +:+ name) = guessUrlFromFilename name.
Proof.
  intros Hdir. unfold guessUrlFromFilename.
  change (dir +:+ "/" +:+ name) with (dir +:+ String "/"%char name).
  by rewrite (sub_dirs_dir dir name Hdir).
Qed.

Lemma guessUrlFromFilename_strips_path_witness :
  guessUrlFromFilename "/home/x/foo.bar+bla+baz.tar" =
  guessUrlFromFilename "foo.bar+bla+baz.tar".
Proof.
  apply (guessUrlFromFilename_strips_path "/home/x" "foo.bar+bla+baz.tar").
  reflexivity.
Defined.

(** * Properties of [main] *)

Lemma said_nil {A} (r : main_result A) : said [] r = r.
Proof. by destruct r. Qed.

Lemma said_said {A} l1 l2 (r : main_result A) :
  said l1 (said l2 r) = said (l1 ++ l2) r.
Proof. unfold said; simpl. by rewrite app_assoc. Qed.

Lemma submit_unfold fuel cmd url s :
  submit fuel cmd url s =
  MainResult (out (run fuel (cmd ++ [url]) s))
             (post (run fuel (cmd ++ [url]) s))
             (FromPool <$> log (run fuel (cmd ++ [url]) s)).
Proof.
  unfold submit, say_dbg, DEBUG, mbind, mret, call. simpl.
  by destruct (out (run fuel (cmd ++ [url]) s)).
Qed.

(** One turn of the loop of [main]. *)
Lemma for_urls_cons fs a fuel url urls s :
  for_urls fs a fuel (cmd_base a) (url :: urls) s =
  if skips fs a s url
  then said (announce a true url) (for_urls fs a fuel (cmd_base a) urls s)
  else
    let r := run fuel (job a url) s in
    let l := announce a false url ++ (FromPool <$> log r) in
    match out r with
    | Ret _ => said l (for_urls fs a fuel (cmd_base a) urls (post r))
    | Raise e => MainResult (Raise e) (post r) l
    | Diverge => MainResult Diverge (post r) l
    end.
Proof.
  unfold skips, job, announce. cbn [for_urls].
  unfold mbind at 1, say. cbn [mout mpost mlog].
  destruct (Cli.refetch a); cbn [negb andb].
  - unfold mbind at 1. cbn [mout mpost mlog].
    unfold mbind. rewrite submit_unfold. cbn [mout mpost mlog].
    destruct (out (run fuel _ s)); unfold said; cbn [mout mpost mlog];
      by rewrite ?app_nil_r.
  - destruct (Cli.dynname a); cbn [andb].
    + unfold mbind at 1.
      destruct (Cli.skipifexists a); cbn [andb];
        unfold os_path_isfile, mret; cbn [mout mpost mlog].
      * destruct (fs (clock (os s)) (url2filename url)).
        -- unfold mbind, said. cbn [mout mpost mlog]. by rewrite ?app_nil_r.
        -- unfold mbind at 1. cbn [mout mpost mlog].
           unfold mbind. rewrite submit_unfold. cbn [mout mpost mlog].
           destruct (out (run fuel _ s)); unfold said; cbn [mout mpost mlog];
             by rewrite ?app_nil_r.
      * unfold mbind at 1. cbn [mout mpost mlog].
        unfold mbind. rewrite submit_unfold. cbn [mout mpost mlog].
        destruct (out (run fuel _ s)); unfold said; cbn [mout mpost mlog];
          by rewrite ?app_nil_r.
    + unfold mbind. rewrite submit_unfold. cbn [mout mpost mlog].
      destruct (out (run fuel _ s)); unfold said; cbn [mout mpost mlog];
        by rewrite ?app_nil_r.
Qed.

Section MainLoop.
Variables (fs : Z → string → bool) (a : Cli.args) (fuel : nat).

(** A relation between the state and what was logged that the
    announcements and the calls of [run] keep holds where the loop of
    [main] ends. *)
Lemma for_urls_invariant (I : state → list main_event → Prop) :
  (∀ s l skip url, I s l → I s (l ++ announce a skip url)) →
  (∀ s l url, I s l →
     let r := run fuel (job a url) s in
     I (post r) (l ++ (FromPool <$> log r))) →
  ∀ urls s l, I s l →
    let r := for_urls fs a fuel (cmd_base a) urls s in
    I (mpost r) (l ++ mlog r).
Proof.
  intros Hsay Hrun. induction urls as [|url urls IH]; intros s l HI.
  { simpl. by rewrite app_nil_r. }
  cbv zeta. rewrite for_urls_cons.
  destruct (skips fs a s url).
  - cbn [said mpost mlog]. rewrite app_assoc. by apply IH, Hsay.
  - cbv zeta.
    pose proof (Hrun s _ url (Hsay s l false url HI)) as Hstep.
    cbv zeta in Hstep. rewrite <- app_assoc in Hstep.
    destruct (out (run fuel (job a url) s)); cbn [said mpost mlog]; try done.
    rewrite app_assoc. by apply IH.
Qed.

Lemma main_try_unfold s :
  main_try fs a fuel s =
  let r1 := for_urls fs a fuel (cmd_base a) (Cli.url a) s in
  match mout r1 with
  | Ret _ =>
      let r2 := finalize fuel 0 1 (mpost r1) in
      match out r2 with
      | Ret _ => MainResult (Ret tt) (post r2)
                   (mlog r1 ++ (FromPool <$> log r2) ++
                    [Say "download(s) finished"])
      | Raise e => MainResult (Raise e) (post r2)
                     (mlog r1 ++ (FromPool <$> log r2))
      | Diverge => MainResult Diverge (post r2)
                     (mlog r1 ++ (FromPool <$> log r2))
      end
  | Raise e => MainResult (Raise e) (mpost r1) (mlog r1)
  | Diverge => MainResult Diverge (mpost r1) (mlog r1)
  end.
Proof.
  unfold main_try, say_dbg, DEBUG. cbn [Z.leb Z.compare].
  unfold mbind at 1, mret. cbn [mout mpost mlog]. rewrite said_nil.
  unfold mbind at 1.
  destruct (mout (for_urls fs a fuel (cmd_base a) (Cli.url a) s));
    [|done|done].
  cbv zeta. unfold mbind, call, say. cbn [mout mpost mlog].
  destruct (out (finalize fuel 0 1 _)); unfold said; cbn [mout mpost mlog];
    by rewrite ?app_nil_r.
Qed.
End MainLoop.

Lemma main_except_spec s :
  main_except s =
  MainResult (Ret tt) (post (killall s))
    (Say (PROGNAME +:+ ": killing all processes!") ::
     (FromPool <$> log (killall s))).
Proof.
  unfold main_except, mbind, say, call. cbn [mout mpost mlog].
  by rewrite killall_spec.
Qed.

Lemma finalize_out fuel timeout verbose s :
  out (finalize fuel timeout verbose s) = Ret tt ∨
  out (finalize fuel timeout verbose s) = Diverge.
Proof.
  rewrite finalize_unfold. cbn [out emitted].
  generalize (post (__clean s)) 0 (clock (os s)).
  induction fuel as [|fuel IH]; intros s' idx stime;
    rewrite finalize_loop_unfold;
    destruct (0 <? Z.of_nat (length (proc (pool s')))); auto.
  cbv zeta. cbn [out emitted]. apply IH.
Qed.

Lemma pool_events_app l1 l2 :
  pool_events (l1 ++ l2) = pool_events l1 ++ pool_events l2.
Proof. apply omap_app. Qed.

Lemma pool_events_FromPool l : pool_events (FromPool <$> l) = l.
Proof. unfold pool_events. induction l as [|e l IH]; simpl; [done|]. by f_equal. Qed.

Lemma pool_events_announce a skip url : pool_events (announce a skip url) = [].
Proof.
  unfold announce. destruct (Cli.refetch a); [done|].
  destruct (Cli.dynname a); [|done]. by destruct skip.
Qed.

(** ** How [main] ends *)

Lemma announce_says a skip url e :
  e ∈ announce a skip url → ∃ line, e = Say line.
Proof.
  unfold announce. intros [->|Hin]%elem_of_cons; [eauto|].
  destruct (Cli.refetch a); [|destruct (Cli.dynname a); [destruct skip|]];
    try (by apply elem_of_nil in Hin);
    apply list_elem_of_singleton in Hin as ->; eauto.
Qed.

Lemma for_urls_no_traceback fs a fuel urls s x :
  Traceback x ∉ mlog (for_urls fs a fuel (cmd_base a) urls s).
Proof.
  apply (for_urls_invariant fs a fuel (λ _ l, Traceback x ∉ l))
    with (l := []) (s := s) (urls := urls).
  - intros s' l skip url Hl [Hin|Hin]%elem_of_app; [done|].
    by apply announce_says in Hin as [line ?].
  - intros s' l url Hl. cbv zeta. intros [Hin|Hin]%elem_of_app; [done|].
    by apply list_elem_of_fmap in Hin as (?&?&?).
  - apply not_elem_of_nil.
Qed.

(** X15: status zero means that all went through.  When [main] exits
    with status [0], the running set is empty, the last thing printed is
    the final message, and no traceback was printed. *)
Theorem main_exit_zero (fs : Z → string → bool) (a : Cli.args) (fuel : nat)
    (w : world) :
  let e := main fs a fuel w in
  exit_status e = Some 0 →
  proc (pool (final e)) = [] ∧
  (∃ l, output e = l ++ [Say "download(s) finished"]) ∧
  (∀ x, Traceback x ∉ output e).
Proof.
  cbv zeta. unfold main. cbv zeta. rewrite main_try_unfold. cbv zeta.
  set (r1 := for_urls fs a fuel (cmd_base a) (Cli.url a) _).
  pose proof (λ x, for_urls_no_traceback fs a fuel (Cli.url a)
    {| pool := __init__ (Cli.process_timeout a) (Cli.maxproc a); os := w |} x)
    as Hloop. fold r1 in Hloop.
  destruct (mout r1); cbn [mout exit_status]; [|done|done].
  assert (Hnil : out (finalize fuel 0 1 (mpost r1)) = Ret tt →
                 proc (pool (post (finalize fuel 0 1 (mpost r1)))) = []).
  { rewrite finalize_unfold. apply finalize_loop_returns. }
  destruct (out (finalize fuel 0 1 (mpost r1))) as [[]| |];
    cbn [mout exit_status final output mpost mlog]; [|done|done].
  intros _. split; [by apply Hnil|]. split.
  - exists (mlog r1 ++ (FromPool <$> log (finalize fuel 0 1 (mpost r1)))).
    by rewrite <- app_assoc.
  - intros x [Hin|[Hin|Hin]%elem_of_app]%elem_of_app.
    + by apply (Hloop x).
    + by apply list_elem_of_fmap in Hin as (?&?&?).
    + by apply list_elem_of_singleton in Hin.
Qed.

Lemma main_exit_zero_witness :
  let e := main (one_file "b.org+y")
             (sample_args ["http://a.org/x"; "http://b.org/y"; "c"]) 10 w_any in
  proc (pool (final e)) = [] ∧ (∀ x, Traceback x ∉ output e).
Proof.
  cbv zeta.
  assert (Hst : exit_status (main (one_file "b.org+y")
             (sample_args ["http://a.org/x"; "http://b.org/y"; "c"]) 10 w_any) =
           Some 0) by (vm_compute; reflexivity).
  destruct (main_exit_zero _ _ _ _ Hst) as (Hnil&_&Htb).
  split; [exact Hnil | exact Htb].
Defined.

Lemma announce_not_finished a skip url :
  Say "download(s) finished" ∉ announce a skip url.
Proof.
  unfold announce. intros [Hin|Hin]%elem_of_cons; [discriminate|].
  destruct (Cli.refetch a); [|destruct (Cli.dynname a); [destruct skip|]];
    try (by apply elem_of_nil in Hin);
    apply list_elem_of_singleton in Hin; discriminate.
Qed.

Lemma for_urls_not_finished fs a fuel urls s :
  Say "download(s) finished" ∉ mlog (for_urls fs a fuel (cmd_base a) urls s).
Proof.
  apply (for_urls_invariant fs a fuel
           (λ _ l, Say "download(s) finished" ∉ l))
    with (l := []) (s := s) (urls := urls).
  - intros s' l skip url Hl [Hin|Hin]%elem_of_app; [done|].
    by apply announce_not_finished in Hin.
  - intros s' l url Hl. cbv zeta. intros [Hin|Hin]%elem_of_app; [done|].
    by apply list_elem_of_fmap in Hin as (?&?&?).
  - apply not_elem_of_nil.
Qed.

(** X16: a launch that fails ends [main] with status one, through the
    handler of lines 245-251.  When the body of the [try] raises
    [OSError], [main] exits with status [1] after [killall] has been
    called: every process still tracked has exited or has been sent a
    kill.  The output ends with the traceback of [OSError], it holds the
    message of the handler, and the final message of a successful run is
    not in it. *)
Theorem main_exit_one (fs : Z → string → bool) (a : Cli.args) (fuel : nat)
    (w : world) :
  let s := {| pool := __init__ (Cli.process_timeout a) (Cli.maxproc a);
              os := w |} in
  let e := main fs a fuel w in
  mout (main_try fs a fuel s) = Raise OSError →
  exit_status e = Some 1 ∧
  (∀ p, p ∈ proc (pool (final e)) →
     gone (os (final e)) p ∨ pid p ∈ killed (os (final e))) ∧
  (∃ l, output e = l ++ [Traceback OSError]) ∧
  (Say (PROGNAME +:+ ": killing all processes!") ∈ output e) ∧
  (Say "download(s) finished" ∉ output e).
Proof.
  cbv zeta. unfold main. cbv zeta. rewrite main_try_unfold. cbv zeta.
  set (r1 := for_urls fs a fuel (cmd_base a) (Cli.url a) _).
  pose proof (for_urls_not_finished fs a fuel (Cli.url a)
    {| pool := __init__ (Cli.process_timeout a) (Cli.maxproc a); os := w |})
    as Hloop. fold r1 in Hloop.
  assert (Hend : ∀ (s : state) (l : list main_event),
    Say "download(s) finished" ∉ l →
    let h := main_except s in
    (∀ p, p ∈ proc (pool (mpost h)) →
       gone (os (mpost h)) p ∨ pid p ∈ killed (os (mpost h))) ∧
    (∃ l', l ++ mlog h ++ [Traceback OSError] = l' ++ [Traceback OSError]) ∧
    (Say (PROGNAME +:+ ": killing all processes!") ∈
       l ++ mlog h ++ [Traceback OSError]) ∧
    (Say "download(s) finished" ∉ l ++ mlog h ++ [Traceback OSError])).
  { intros s l Hl. cbv zeta. rewrite main_except_spec.
    cbn [mpost mlog]. rewrite killall_spec. cbn [post pool os log].
    split; [|split; [|split]].
    - intros p Hp.
      by apply (dies_by_signalled (instant (os s) + kill_lag (os s))),
        after_killall_dies.
    - exists (l ++ Say (PROGNAME +:+ ": killing all processes!") ::
                (FromPool <$> killall_log (os s) (proc (pool s)))).
      by rewrite <- app_assoc.
    - apply elem_of_app. right. by left.
    - intros [Hin|Hin]%elem_of_app; [done|].
      apply elem_of_cons in Hin as [Hin|Hin]; [discriminate|].
      apply elem_of_app in Hin as [Hin|Hin].
      + by apply list_elem_of_fmap in Hin as (?&?&?).
      + by apply list_elem_of_singleton in Hin. }
  destruct (mout r1) as [[]|[]|]; cbn [mout exit_status].
  - destruct (finalize_out fuel 0 1 (mpost r1)) as [Hout|Hout];
      rewrite Hout; cbn [mout exit_status]; done.
  - intros _. cbn [final output mpost mlog]. split; [done|]. by apply Hend.
  - done.
Qed.

Lemma main_exit_one_witness :
  let a := {| Cli.maxproc := 8; Cli.process_timeout := 0; Cli.timeout := Some 30;
              Cli.connect_timeout := 0; Cli.dns_timeout := 0;
              Cli.read_timeout := 900; Cli.referer := None;
              Cli.dynname := false; Cli.refetch := false;
              Cli.skipifexists := false; Cli.nocontinue := true;
              Cli.url := ["http://a.org/x"; "http://b.org/y"; "c"] |} in
  let w := {| clock := 0; millis := 0; dying := ∅; kill_lag := 5;
              next_pid := 1;
              os_exec := λ now cmd, if bool_decide ("c" ∈ cmd) then None
                                    else Some forever |} in
  let e := main (one_file "none") a 10 w in
  exit_status e = Some 1 ∧
  (∀ p, p ∈ proc (pool (final e)) →
     gone (os (final e)) p ∨ pid p ∈ killed (os (final e))) ∧
  pid <$> proc (pool (final e)) = [1; 2] ∧
  kills (pool_events (output e)) = [(at_killall, 1); (at_killall, 2)].
Proof.
  cbv zeta.
  match goal with |- exit_status (main ?fs ?a ?fuel ?w) = _ ∧ _ =>
    assert (Hraise : mout (main_try fs a fuel
              {| pool := __init__ (Cli.process_timeout a) (Cli.maxproc a);
                 os := w |}) = Raise OSError) by (vm_compute; reflexivity);
    destruct (main_exit_one fs a fuel w Hraise) as (Hst&Hsig&_)
  end.
  split; [exact Hst|]. split; [exact Hsig|].
  split; vm_compute; reflexivity.
Defined.

(** ** What [main] launches *)

Lemma spawned_app l1 l2 : spawned (l1 ++ l2) = spawned l1 ++ spawned l2.
Proof. apply omap_app. Qed.

Lemma spawned_killall_log ps : ∀ w, spawned (killall_log w ps) = [].
Proof.
  induction ps as [|p ps IH]; intros w; simpl; [done|].
  destruct (status w p); apply IH.
Qed.

Lemma spawned_finalize fuel timeout verbose s :
  spawned (log (finalize fuel timeout verbose s)) = [].
Proof.
  rewrite finalize_unfold. cbn [log emitted].
  apply (finalize_loop_invariant (λ _ l, spawned l = [])).
  - intros idx s' l Hl. cbv zeta. rewrite finalize_round_spec. cbn [log].
    rewrite !spawned_app, Hl, spawned_sweep_log.
    destruct (_ && _); destruct (_ && _);
      by rewrite ?spawned_killall_log.
  - rewrite clean_spec. apply spawned_sweep_log.
Qed.

Lemma no_skip_skips fs a s url :
  Cli.refetch a = true ∨ Cli.dynname a = false ∨ Cli.skipifexists a = false →
  skips fs a s url = false.
Proof.
  unfold skips. intros [-> | [-> | ->]]; [done| |].
  - by destruct (Cli.refetch a).
  - by destruct (Cli.refetch a), (Cli.dynname a).
Qed.

Lemma for_urls_spawned fs a fuel urls : ∀ s,
  let r := for_urls fs a fuel (cmd_base a) urls s in
  let sp := spawned (pool_events (mlog r)) in
  sp `sublist_of` (job a <$> urls) ∧
  (Cli.refetch a = true ∨ Cli.dynname a = false ∨ Cli.skipifexists a = false →
   sp `prefix_of` (job a <$> urls) ∧
   (mout r = Ret tt → sp = job a <$> urls)).
Proof.
  induction urls as [|url urls IH]; intros s; cbv zeta.
  { simpl. split; [constructor|]. intros _. split; [by exists [] | done]. }
  rewrite for_urls_cons. cbn [fmap list_fmap].
  destruct (skips fs a s url) eqn:Hskip.
  - cbn [said mlog]. rewrite pool_events_app, pool_events_announce. cbn [app].
    destruct (IH s) as [Hsub _]. split; [by apply sublist_cons|].
    intros Hno. by rewrite (no_skip_skips fs a s url Hno) in Hskip.
  - cbv zeta. pose proof (spawned_run fuel (job a url) s) as Hrun.
    destruct (out (run fuel (job a url) s)) as [[]|e|];
      cbn [said mout mlog];
      rewrite ?pool_events_app, pool_events_announce, pool_events_FromPool;
      cbn [app]; rewrite ?spawned_app, Hrun.
    + destruct (IH (post (run fuel (job a url) s))) as [Hsub Hpre].
      split; [by apply sublist_skip|]. intros Hno.
      destruct (Hpre Hno) as [Hp Heq]. split.
      * by apply (prefix_app [job a url]).
      * intros Hout. cbn [app]. by rewrite (Heq Hout).
    + split; [apply sublist_nil_l|]. intros _.
      split; [apply prefix_nil | done].
    + split; [apply sublist_nil_l|]. intros _.
      split; [apply prefix_nil | done].
Qed.

Lemma spawned_pool_app l1 l2 :
  spawned (pool_events (l1 ++ l2)) =
  spawned (pool_events l1) ++ spawned (pool_events l2).
Proof. by rewrite pool_events_app, spawned_app. Qed.

Lemma spawned_main_except s : spawned (pool_events (mlog (main_except s))) = [].
Proof.
  rewrite main_except_spec. cbn [mlog].
  change (Say ?x :: ?l) with ([Say x] ++ l).
  rewrite spawned_pool_app, pool_events_FromPool, killall_spec. cbn [log].
  by rewrite spawned_killall_log.
Qed.

(** Only the loop over the URLs launches anything. *)
Lemma main_spawned fs a fuel w :
  let r1 := for_urls fs a fuel (cmd_base a) (Cli.url a)
              {| pool := __init__ (Cli.process_timeout a) (Cli.maxproc a);
                 os := w |} in
  spawned (pool_events (output (main fs a fuel w))) =
    spawned (pool_events (mlog r1)) ∧
  (exit_status (main fs a fuel w) = Some 0 → mout r1 = Ret tt).
Proof.
  cbv zeta. unfold main. cbv zeta. rewrite main_try_unfold. cbv zeta.
  set (r1 := for_urls fs a fuel (cmd_base a) (Cli.url a) _).
  destruct (mout r1) as [[]|e|]; cbn [mout].
  - pose proof (spawned_finalize fuel 0 1 (mpost r1)) as Hfin.
    destruct (finalize_out fuel 0 1 (mpost r1)) as [Hout|Hout]; rewrite Hout;
      cbn [exit_status output mout mpost mlog];
      rewrite !spawned_pool_app, pool_events_FromPool, Hfin;
      by rewrite ?app_nil_r.
  - cbn [exit_status output mpost mlog].
    rewrite !spawned_pool_app, spawned_main_except.
    by rewrite ?app_nil_r.
  - done.
Qed.

(** X17: [main] launches the jobs of the URLs in their order.  The
    commands launched, from beginning to end of [main], are a
    subsequence of the jobs of the URLs given; when nothing can be
    skipped (not both [--dynname] and [--skipifexists], or [--refetch])
    they are a prefix of them, and all of them when [main] exits with
    status [0]. *)
Theorem main_launches_in_order (fs : Z → string → bool) (a : Cli.args)
    (fuel : nat) (w : world) :
  let e := main fs a fuel w in
  let sp := spawned (pool_events (output e)) in
  sp `sublist_of` (job a <$> Cli.url a) ∧
  (Cli.refetch a = true ∨ Cli.dynname a = false ∨ Cli.skipifexists a = false →
   sp `prefix_of` (job a <$> Cli.url a) ∧
   (exit_status e = Some 0 → sp = job a <$> Cli.url a)).
Proof.
  cbv zeta. destruct (main_spawned fs a fuel w) as [-> Hzero].
  destruct (for_urls_spawned fs a fuel (Cli.url a)
    {| pool := __init__ (Cli.process_timeout a) (Cli.maxproc a); os := w |})
    as [Hsub Hpre].
  split; [done|]. intros Hno. destruct (Hpre Hno) as [Hp Heq].
  split; [done|]. intros Hst. by apply Heq, Hzero.
Qed.

(** ** The limit and the end of [main] *)

Lemma finalize_config fuel timeout verbose s :
  let r := finalize fuel timeout verbose s in
  max_processes (pool (post r)) = max_processes (pool s) ∧
  (length (proc (pool (post r))) ≤ length (proc (pool s)))%nat.
Proof.
  cbv zeta. rewrite finalize_unfold. cbn [post emitted].
  pose (I := λ (s' : state) (_ : list event),
    max_processes (pool s') = max_processes (pool s) ∧
    (length (proc (pool s')) ≤ length (proc (pool s)))%nat).
  apply (finalize_loop_invariant I) with (l := []).
  - intros idx s' l [HK Hlen]. cbv zeta. rewrite finalize_round_spec.
    unfold I. cbn [post pool with_proc proc max_processes].
    split; [done|].
    etrans; [apply survivors_length | done].
  - unfold I. rewrite clean_spec. cbn [post pool with_proc proc max_processes].
    split; [done | apply survivors_length].
Qed.

(** X18: [main] keeps to [--maxproc].  With a limit that is not
    negative, never more processes are tracked than the limit allows
    where [main] ends, be it at its exit or in a loop whose fuel is
    used up. *)
Theorem main_respects_limit (fs : Z → string → bool) (a : Cli.args)
    (fuel : nat) (w : world) :
  0 ≤ Cli.maxproc a →
  let e := main fs a fuel w in
  Z.of_nat (length (proc (pool (final e)))) ≤ Cli.maxproc a ∧
  max_processes (pool (final e)) = Cli.maxproc a.
Proof.
  intros HK. cbv zeta. unfold main. cbv zeta. rewrite main_try_unfold.
  cbv zeta. set (s0 := {| pool := _; os := w |}).
  pose (I := λ (s : state) (_ : list main_event),
    bounded s ∧ max_processes (pool s) = Cli.maxproc a).
  assert (Hloop : I (mpost (for_urls fs a fuel (cmd_base a) (Cli.url a) s0))
                    ([] ++ mlog (for_urls fs a fuel (cmd_base a) (Cli.url a) s0))).
  { apply (for_urls_invariant fs a fuel I).
    - by intros s l skip url ?.
    - intros s l url [Hb HK']. cbv zeta.
      destruct (run_bounded fuel (job a url) s Hb) as [Hb' Heq].
      split; [done | by rewrite Heq].
    - unfold I, bounded, s0. simpl. split; [lia | done]. }
  destruct Hloop as [Hb HK']. unfold bounded in Hb. rewrite HK' in Hb.
  set (r1 := for_urls fs a fuel (cmd_base a) (Cli.url a) s0) in *.
  assert (Hfin : Z.of_nat (length (proc (pool (post
                   (finalize fuel 0 1 (mpost r1)))))) ≤ Cli.maxproc a ∧
                 max_processes (pool (post (finalize fuel 0 1 (mpost r1)))) =
                 Cli.maxproc a).
  { destruct (finalize_config fuel 0 1 (mpost r1)) as [-> Hlen].
    split; [lia | done]. }
  destruct (mout r1) as [[]|e|]; cbn [mout].
  - destruct (out (finalize fuel 0 1 (mpost r1))) as [[]|e|];
      cbn [mout final mpost]; try done.
    rewrite main_except_spec, killall_spec. cbn [mpost post pool]. done.
  - cbn [final]. rewrite main_except_spec, killall_spec.
    cbn [mpost post pool]. done.
  - done.
Qed.

Lemma main_respects_limit_witness :
  let e := main (one_file "b.org+y")
             (sample_args ["http://a.org/x"; "http://b.org/y"; "c"; "d"]) 2
             w_any in
  Z.of_nat (length (proc (pool (final e)))) ≤ 2.
Proof.
  cbv zeta.
  assert (HK : 0 ≤ Cli.maxproc
            (sample_args ["http://a.org/x"; "http://b.org/y"; "c"; "d"]))
    by (simpl; lia).
  exact (proj1 (main_respects_limit (one_file "b.org+y") _ 2 w_any HK)).
Defined.








(** ** [main] and the files *)

Lemma for_urls_same_files fs fs' a fuel urls :
  Cli.refetch a = true ∨ Cli.dynname a = false ∨ Cli.skipifexists a = false →
  ∀ s, for_urls fs a fuel (cmd_base a) urls s =
       for_urls fs' a fuel (cmd_base a) urls s.
Proof.
  intros Hno. induction urls as [|url urls IH]; intros s; [done|].
  rewrite !for_urls_cons, !no_skip_skips by done. cbv zeta.
  destruct (out (run fuel (job a url) s)); by rewrite ?IH.
Qed.

(** X20: unless [--dynname] and [--skipifexists] are both given and
    [--refetch] is not, [main] never looks at the files: it runs the
    same whatever files exist. *)
Theorem main_ignores_files (fs fs' : Z → string → bool) (a : Cli.args)
    (fuel : nat) (w : world) :
  Cli.refetch a = true ∨ Cli.dynname a = false ∨ Cli.skipifexists a = false →
  main fs a fuel w = main fs' a fuel w.
Proof.
  intros Hno. unfold main. cbv zeta. rewrite !main_try_unfold. cbv zeta.
  by rewrite (for_urls_same_files fs fs' a fuel (Cli.url a) Hno).
Qed.

Lemma main_ignores_files_witness :
  let a := {| Cli.maxproc := 2; Cli.process_timeout := 3; Cli.timeout := None;
              Cli.connect_timeout := 0; Cli.dns_timeout := 0;
              Cli.read_timeout := 900; Cli.referer := Some "http://a.org";
              Cli.dynname := false; Cli.refetch := false;
              Cli.skipifexists := true; Cli.nocontinue := false;
              Cli.url := ["http://a.org/x"; "http://a.org/y"] |} in
  main (one_file "a.org+x") a 6 w_any = main (one_file "a.org+y") a 6 w_any.
Proof.
  cbv zeta. apply main_ignores_files. right. left. reflexivity.
Defined.

Lemma for_urls_all_skipped fs a fuel urls : ∀ s,
  Cli.refetch a = false → Cli.dynname a = true → Cli.skipifexists a = true →
  (∀ u, u ∈ urls → fs (clock (os s)) (url2filename u) = true) →
  let r := for_urls fs a fuel (cmd_base a) urls s in
  mout r = Ret tt ∧ mpost r = s ∧ pool_events (mlog r) = [].
Proof.
  induction urls as [|url urls IH]; intros s Hrf Hdn Hsk Hall; [done|].
  cbv zeta. rewrite for_urls_cons.
  assert (Hskip : skips fs a s url = true).
  { unfold skips. rewrite Hrf, Hdn, Hsk. simpl. apply Hall. by left. }
  rewrite Hskip. cbn [said mout mpost mlog].
  destruct (IH s Hrf Hdn Hsk) as (Hout&Hpost&Hlog).
  { intros u Hu. apply Hall. by right. }
  split; [done|]. split; [done|].
  by rewrite pool_events_app, pool_events_announce, Hlog.
Qed.

(** X21: when all is there, [main] does nothing.  With [--dynname] and
    [--skipifexists] and without [--refetch], when the file of every URL
    exists at the start, [main] launches nothing, polls nothing, does
    not sleep, and exits with status [0] in an unchanged world, whatever
    the fuel. *)
Theorem main_all_skipped (fs : Z → string → bool) (a : Cli.args)
    (fuel : nat) (w : world) :
  Cli.refetch a = false → Cli.dynname a = true → Cli.skipifexists a = true →
  (∀ u, u ∈ Cli.url a → fs (clock w) (url2filename u) = true) →
  let e := main fs a fuel w in
  exit_status e = Some 0 ∧
  os (final e) = w ∧
  pool_events (output e) = [].
Proof.
  intros Hrf Hdn Hsk Hall. cbv zeta. unfold main. cbv zeta.
  rewrite main_try_unfold. cbv zeta.
  destruct (for_urls_all_skipped fs a fuel (Cli.url a)
    {| pool := __init__ (Cli.process_timeout a) (Cli.maxproc a); os := w |}
    Hrf Hdn Hsk Hall) as (Hout&Hpost&Hlog).
  rewrite Hout, Hpost.
  assert (Hfin : finalize fuel 0 1
    {| pool := __init__ (Cli.process_timeout a) (Cli.maxproc a); os := w |} =
    Result (Ret tt)
      {| pool := __init__ (Cli.process_timeout a) (Cli.maxproc a); os := w |} []).
  { rewrite finalize_unfold, clean_spec. cbn [post log pool os proc __init__].
    cbn [survivors after_sweep sweep_log].
    rewrite finalize_loop_unfold. by destruct fuel. }
  rewrite Hfin. cbn [out mout mpost mlog exit_status final output post log os].
  split; [done|]. split; [done|].
  rewrite !pool_events_app, Hlog. done.
Qed.

Lemma main_all_skipped_witness :
  let e := main (one_file "a.org+x")
             (sample_args ["http://a.org/x"; "ftp://a.org/x/"]) 0 w_any in
  exit_status e = Some 0 ∧ os (final e) = w_any.
Proof.
  cbv zeta.
  set (a := sample_args ["http://a.org/x"; "ftp://a.org/x/"]).
  assert (Hall : ∀ u, u ∈ Cli.url a →
            one_file "a.org+x" (clock w_any) (url2filename u) = true).
  { intros u Hu. simpl in Hu.
    apply elem_of_cons in Hu as [->|Hu]; [reflexivity|].
    apply elem_of_cons in Hu as [->|Hu]; [reflexivity|].
    by apply elem_of_nil in Hu. }
  destruct (main_all_skipped (one_file "a.org+x") a 0 w_any
              eq_refl eq_refl eq_refl Hall) as (Hst&Hos&_).
  split; [exact Hst | exact Hos].
Defined.

Lemma job_shape a u :
  (Cli.refetch a = true →
   job a u = cmd_base a ++ ["-O"; u; guessUrlFromFilename u]) ∧
  (Cli.refetch a = false → Cli.dynname a = true →
   job a u = cmd_base a ++ ["-O"; url2filename u; u]) ∧
  (Cli.refetch a = false → Cli.dynname a = false →
   job a u = cmd_base a ++ [u]).
Proof.
  unfold job. destruct (Cli.refetch a), (Cli.dynname a);
    repeat split; intros; try done; by rewrite <- app_assoc.
Qed.

(** X22: what [main] asks [wget] to do.  Every command launched is the
    base command followed, for one of the URLs given: with [--refetch],
    by [-O], the name given and a URL that begins with ["http://"]; with
    [--dynname] alone, by [-O], a name without slash or space, so a
    file of the current directory, and the URL; otherwise by the URL
    only. *)
Theorem main_commands (fs : Z → string → bool) (a : Cli.args)
    (fuel : nat) (w : world) (cmd : list string) :
  cmd ∈ spawned (pool_events (output (main fs a fuel w))) →
  ∃ u, u ∈ Cli.url a ∧
    (Cli.refetch a = true →
     ∃ rest, cmd = cmd_base a ++ ["-O"; u; "http://" +:+ rest]) ∧
    (Cli.refetch a = false → Cli.dynname a = true →
     ∃ f, cmd = cmd_base a ++ ["-O"; f; u] ∧
          contains "/" f = false ∧ contains " " f = false) ∧
    (Cli.refetch a = false → Cli.dynname a = false →
     cmd = cmd_base a ++ [u]).
Proof.
  destruct (main_spawned fs a fuel w) as [-> _].
  destruct (for_urls_spawned fs a fuel (Cli.url a)
    {| pool := __init__ (Cli.process_timeout a) (Cli.maxproc a); os := w |})
    as [Hsub _].
  intros Hin. apply (elem_of_sublist _ _ _ Hin) in Hsub as Hjob. clear Hin.
  rename Hjob into Hin.
  apply list_elem_of_fmap in Hin as (u&->&Hu). exists u. split; [done|].
  destruct (job_shape a u) as (Hrf&Hdn&Hplain).
  split; [|split].
  - intros H. rewrite (Hrf H). unfold guessUrlFromFilename.
    exists (replace_char "+" "/" (sub_dirs u)). by rewrite replace_char_app.
  - intros H1 H2. rewrite (Hdn H1 H2). exists (url2filename u).
    split; [done|]. unfold url2filename. split.
    + apply contains_replace_char; [done|]. by apply contains_replaced.
    + by apply contains_replaced.
  - intros H1 H2. by rewrite (Hplain H1 H2).
Qed.

Lemma main_commands_witness :
  ∃ u, u ∈ ["http://a.org/x"; "http://b.org/y"] ∧
    ∃ f, cmd_base (sample_args ["http://a.org/x"; "http://b.org/y"]) ++
           ["-O"; "a.org+x"; "http://a.org/x"] =
         cmd_base (sample_args ["http://a.org/x"; "http://b.org/y"]) ++
           ["-O"; f; u] ∧
         contains "/" f = false.
Proof.
  set (a := sample_args ["http://a.org/x"; "http://b.org/y"]).
  assert (Hin : cmd_base a ++ ["-O"; "a.org+x"; "http://a.org/x"] ∈
            spawned (pool_events (output (main (one_file "b.org+y") a 9 w_any)))).
  { vm_compute. left. }
  destruct (main_commands (one_file "b.org+y") a 9 w_any _ Hin)
    as (u&Hu&_&Hdn&_).
  destruct (Hdn eq_refl eq_refl) as (f&Hf&Hflat&_).
  exists u. split; [exact Hu|]. exists f. split; [exact Hf | exact Hflat].
Defined.
